(** * rdiff: the pipelines of [rdiff/main.go]

    A shallow embedding of the four verbs of the rdiff clone
    ([signature], [delta], [patch], [test]) and the properties of its
    streaming layer.

    What lives outside [main.go] is kept abstract:
    - the sync engine ([rsync.RSync] with [CreateSignature],
      [CreateDelta], [ApplyDelta]) is a type class [Engine];
    - the digest ([crypto/md5]) is a type class [Digest];
    - the framing codec ([encoding/gob]) is a stream of typed frames.

    The two goroutines of [patch] and the three of [test] communicate
    only through FIFO channels, so every run in which the consumer
    drains its channels computes the same values; the embedding is that
    sequential reading, with the scheduling-dependent parts (visibility
    of a pending read error) taken as an explicit oracle. *)

From Stdlib Require Import ZArith List Bool Lia.
From Stdlib Require Strings.String.
Import String.StringSyntax.
From Stdlib Require Import Strings.Byte.
Import ListNotations.
Local Open Scope string_scope.
Local Open Scope Z_scope.

Set Implicit Arguments.

(** ** Go values *)

Module Go.

(** Go's [error] values met in [main.go].  [nil] is [None] of
    [option error]. *)
Inductive error : Type :=
| EOF                               (* io.EOF *)
| ErrUnexpectedEOF                  (* io.ErrUnexpectedEOF *)
| NoTargetSumError                  (* "Checksum request but missing target hash." *)
| HashNoMatchError                  (* "Final data hash does not match." *)
| FileSizeDifferent                 (* fmt.Errorf("File size different.") *)
| BytesDiffer (location : Z)        (* fmt.Errorf("FAIL: Bytes differ at %d.", location) *)
| ErrorReadingFile (cause : error)  (* fmt.Errorf("Error reading file: %s", err) *)
| Foreign (msg : String.string).    (* an error made by os, gob or the engine *)

(** [err == io.EOF] *)
Definition is_EOF (err : error) : bool :=
  match err with EOF => true | _ => false end.

(** A [[]byte]: [None] is the nil slice, [Some l] a slice holding [l]. *)
Definition slice : Type := option (list byte).

Definition contents (s : slice) : list byte :=
  match s with None => [] | Some l => l end.

Fixpoint bytes_eqb (a b : list byte) : bool :=
  match a, b with
  | [], [] => true
  | x :: a', y :: b' => Byte.eqb x y && bytes_eqb a' b'
  | _, _ => false
  end.

(** [bytes.Equal]: a nil slice equals an empty one. *)
Definition bytes_Equal (a b : slice) : bool :=
  bytes_eqb (contents a) (contents b).

(** Go's [int] on a 64-bit platform: two's complement wrap-around. *)
Definition int_wrap (z : Z) : Z := (z + 2 ^ 63) mod 2 ^ 64 - 2 ^ 63.

Definition int_mul (a b : Z) : Z := int_wrap (a * b).

Definition int_add (a b : Z) : Z := int_wrap (a + b).

End Go.
Import Go.

(** ** The sync engine, as [main.go] uses it *)

Module rsync.

(** Modelled from the spec: the operation tag of the engine library.
    [main.go] names only [HASH]; the spec gives the closed enumeration
    copy, insert, sentinel. *)
Inductive OpType : Type := COPY | INSERT | HASH.

Definition OpType_eqb (a b : OpType) : bool :=
  match a, b with
  | COPY, COPY | INSERT, INSERT | HASH, HASH => true
  | _, _ => false
  end.

(** Modelled from the spec: the [Operation] struct of the engine
    library, "copy N bytes from basis at offset O", "insert these
    literal bytes", or the sentinel with its checksum payload.
    [main.go] reads and writes the fields [Type] and [Data] only. *)
Record Operation : Type := mkOperation {
  Type' : OpType;
  Offset : Z;
  Length : Z;
  Data : slice
}.

(** Modelled from the spec: one record per basis block, its index and
    its weak and strong checksums. *)
Record BlockHash : Type := mkBlockHash {
  Index : Z;
  StrongHash : list byte;
  WeakHash : Z
}.

Record RSync : Type := mkRSync {
  BlockSize : Z;
  MaxDataOp : Z
}.

(** What one engine call did: the values it handed to its callback (or
    wrote to its output), the bytes it wrote to the hasher it was
    given, and the error it returned for a cause of its own. *)
Record Run (A : Type) : Type := mkRun {
  emitted : list A;
  hashed : list byte;
  failure : option error
}.

(** Modelled from the spec: the three abstract operations of the sync
    engine.  The [bool] tells whether the [hasher] argument is non-nil.
    [ApplyDelta] is given the operations offered on its channel: it
    ranges over the channel and returns no error only once the channel
    is closed. *)
Class Engine : Type := {
  CreateSignature : RSync -> list byte -> Run BlockHash;
  CreateDelta : RSync -> list byte -> list BlockHash -> bool -> Run Operation;
  ApplyDelta : RSync -> list byte -> list Operation -> bool -> Run byte
}.

End rsync.
Import rsync.

(** Modelled from the spec: the digest behind [md5.New()]: [Sum] of the
    bytes written to the hasher. *)
Class Digest : Type := {
  md5_Sum : list byte -> list byte;
  md5_Size : forall written, length (md5_Sum written) = 16%nat
}.

(** [hasher.Sum(nil)] after [written] went through [hasher.Write]: the
    digest appended to the nil slice, a slice of [md5.Size] bytes. *)
Definition Sum_nil {digest : Digest} (written : list byte) : slice :=
  Some (md5_Sum written).

(** ** The framing codec *)

Module gob.

(** Modelled from the spec: the framing codec ([encoding/gob]) as a
    sequential stream of self-delimiting typed records.  A file is the
    list of its frames; [FBad err] stands for bytes at which the
    decoder reports [err] (a corrupt record or a failing read). *)
Inductive Frame : Type :=
| FInt (n : Z)
| FBlockHash (b : BlockHash)
| FOperation (o : Operation)
| FBad (err : error).

Definition type_mismatch : error := Foreign "gob: type mismatch".

Definition as_int (f : Frame) : error + Z :=
  match f with
  | FInt n => inr n
  | FBad err => inl err
  | _ => inl type_mismatch
  end.

Definition as_BlockHash (f : Frame) : error + BlockHash :=
  match f with
  | FBlockHash b => inr b
  | FBad err => inl err
  | _ => inl type_mismatch
  end.

Definition as_Operation (f : Frame) : error + Operation :=
  match f with
  | FOperation o => inr o
  | FBad err => inl err
  | _ => inl type_mismatch
  end.

(** A [gob.Decoder] is the frames it has not read yet. *)
Definition Decoder : Type := list Frame.

(** [Decode(&v)]: the next frame read as the type of [v], [io.EOF] on
    an exhausted stream. *)
Definition Decode (A : Type) (as_A : Frame -> error + A) (d : Decoder)
  : (error + A) * Decoder :=
  match d with
  | [] => (inl EOF, [])
  | f :: d' => (as_A f, d')
  end.

(** A file opened for writing by [os.Create]: how many more frames the
    device accepts ([None]: any number). *)
Definition Device : Type := option nat.

(** A [gob.Encoder] on an output file: the frames written so far and
    the room left on the device. *)
Record Encoder : Type := mkEncoder {
  written : list Frame;
  room : Device
}.

Definition no_space : error := Foreign "write: no space left on device".

(** [os.Create] truncates: a fresh encoder has written nothing. *)
Definition NewEncoder (file : Device) : Encoder :=
  {| written := []; room := file |}.

Definition Encode (e : Encoder) (f : Frame) : option error * Encoder :=
  match room e with
  | Some O => (Some no_space, e)
  | Some (S k) => (None, {| written := written e ++ [f]; room := Some k |})
  | None => (None, {| written := written e ++ [f]; room := None |})
  end.

End gob.
Import gob.

(** ** The pipelines of [main.go] *)

Module Main.

(** The flags [--block] and [--check], read by every verb. *)
Record Flags : Type := mkFlags {
  blockSizeKiB : Z;
  checkFile : bool
}.

Definition getRsync (fl : Flags) : RSync :=
  {| BlockSize := int_mul 1024 (blockSizeKiB fl);
     MaxDataOp := int_mul 1024 1024 |}.

(** What a verb that writes a framed file leaves behind: the error it
    returns and the frames in its output file (none when the file was
    never created). *)
Record Result : Type := mkResult {
  ret : option error;
  out : list Frame
}.

(** The decode goroutine of [patch] when it ends: the operations it
    offered on the channel, in order, the captured checksum, the
    captured error, and whether the channel was closed. *)
Record DecodeTask : Type := mkDecodeTask {
  sent : list Operation;
  sourceSum : slice;
  decodeError : option error;
  closed : bool
}.

(** What [patch] leaves behind: the error it returns, the bytes written
    to the new file, and, once the decode goroutine was started, its
    record as it ends when the engine drains the channel. *)
Record PatchResult : Type := mkPatchResult {
  patch_ret : option error;
  newfile : list byte;
  task : option DecodeTask
}.

(** Modelled from the spec: the engine hands each value to the push
    callback before it asks for the next, and an error of the callback
    aborts the call and is returned to the caller. *)
Fixpoint push_each (A : Type) (callback : A -> Encoder -> option error * Encoder)
         (values : list A) (e : Encoder) : option error * Encoder :=
  match values with
  | [] => (None, e)
  | v :: rest =>
      match callback v e with
      | (Some err, e') => (Some err, e')
      | (None, e') => push_each callback rest e'
      end
  end.

Definition engine_call (A : Type) (run : Run A)
           (callback : A -> Encoder -> option error * Encoder) (e : Encoder)
  : option error * Encoder :=
  match push_each callback (emitted run) e with
  | (Some err, e') => (Some err, e')
  | (None, e') => (failure run, e')
  end.

(** The loop of [delta] that loads the signature hash list. *)
Fixpoint load_hashes (sigDecode : Decoder) (hl : list BlockHash)
  : error + list BlockHash :=
  match sigDecode with
  | [] => inr hl
  | f :: rest =>
      match as_BlockHash f with
      | inl err => if is_EOF err then inr hl else inl err
      | inr bl => load_hashes rest (hl ++ [bl])
      end
  end.

(** The body of the goroutine of [patch]: [sum] is [sourceSum] so far. *)
Fixpoint decode_ops (deltaDecode : Decoder) (sum : slice) : DecodeTask :=
  match deltaDecode with
  | [] => {| sent := []; sourceSum := sum; decodeError := None; closed := true |}
  | f :: rest =>
      match as_Operation f with
      | inl err =>
          if is_EOF err
          then {| sent := []; sourceSum := sum; decodeError := None; closed := true |}
          else {| sent := []; sourceSum := sum; decodeError := Some err; closed := true |}
      | inr op =>
          if OpType_eqb (Type' op) HASH
          then decode_ops rest (Data op)
          else
            let t := decode_ops rest sum in
            {| sent := op :: sent t; sourceSum := sourceSum t;
               decodeError := decodeError t; closed := closed t |}
      end
  end.

Section Pipelines.

Context {engine : Engine} {digest : Digest}.

(** [signature(basis, signature)]: the arguments are the outcomes of
    [os.Open(basis)] and [os.Create(signature)]. *)
Definition signature (fl : Flags)
           (basisOpen : error + list byte) (sigCreate : error + Device)
  : Result :=
  let rs := getRsync fl in
  match basisOpen with
  | inl err => {| ret := Some err; out := [] |}
  | inr basisFile =>
      match sigCreate with
      | inl err => {| ret := Some err; out := [] |}
      | inr sigFile =>
          let sigEncode := NewEncoder sigFile in
          match Encode sigEncode (FInt (BlockSize rs)) with
          | (Some err, sigEncode) =>
              {| ret := Some err; out := written sigEncode |}
          | (None, sigEncode) =>
              let (err, sigEncode) :=
                engine_call (CreateSignature rs basisFile)
                  (fun block e => Encode e (FBlockHash block)) sigEncode in
              {| ret := err; out := written sigEncode |}
          end
      end
  end.

(** [delta(signature, newfile, delta)]: the arguments are the outcomes
    of the two [os.Open] and of [os.Create(delta)]. *)
Definition delta (fl : Flags)
           (sigOpen : error + Decoder) (nfOpen : error + list byte)
           (deltaCreate : error + Device)
  : Result :=
  let rs := getRsync fl in
  match sigOpen with
  | inl err => {| ret := Some err; out := [] |}
  | inr sigDecode =>
  match nfOpen with
  | inl err => {| ret := Some err; out := [] |}
  | inr nfFile =>
  match deltaCreate with
  | inl err => {| ret := Some err; out := [] |}
  | inr deltaFile =>
  match Decode as_int sigDecode with
  | (inl err, _) =>
      {| ret := Some (if is_EOF err then ErrUnexpectedEOF else err);
         out := [] |}
  | (inr blockSize, sigDecode) =>
  let rs := {| BlockSize := blockSize; MaxDataOp := MaxDataOp rs |} in
  match load_hashes sigDecode [] with
  | inl err => {| ret := Some err; out := [] |}
  | inr hl =>
  match Encode (NewEncoder deltaFile) (FInt (BlockSize rs)) with
  | (Some err, opsEncode) => {| ret := Some err; out := written opsEncode |}
  | (None, opsEncode) =>
  let run := CreateDelta rs nfFile hl (checkFile fl) in
  match engine_call run (fun op e => Encode e (FOperation op)) opsEncode with
  | (Some err, opsEncode) => {| ret := Some err; out := written opsEncode |}
  | (None, opsEncode) =>
      if checkFile fl
      then
        let (err, opsEncode) :=
          Encode opsEncode
            (FOperation {| Type' := HASH; Offset := 0; Length := 0;
                           Data := Sum_nil (hashed run) |}) in
        {| ret := err; out := written opsEncode |}
      else {| ret := None; out := written opsEncode |}
  end end end end end end end.

(** [patch(basis, delta, newfile)]: the arguments are the outcomes of
    the two [os.Open] and of [os.Create(newfile)].  The engine writes
    the new file, so [newfile] is what its run emitted.  The goroutine
    and the engine meet on an unbuffered channel only; [sourceSum] and
    [decodeError] are read after the engine has seen the channel closed.
    When the engine returns an error of its own it may not have drained
    the channel; [patch] then returns that error, as here (the goroutine
    assigning the shared [err] at that moment is left out). *)
Definition patch (fl : Flags)
           (basisOpen : error + list byte) (deltaOpen : error + Decoder)
           (fsCreate : option error)
  : PatchResult :=
  let rs := getRsync fl in
  match basisOpen with
  | inl err => {| patch_ret := Some err; newfile := []; task := None |}
  | inr basisFile =>
  match deltaOpen with
  | inl err => {| patch_ret := Some err; newfile := []; task := None |}
  | inr deltaDecode =>
  match fsCreate with
  | Some err => {| patch_ret := Some err; newfile := []; task := None |}
  | None =>
  match Decode as_int deltaDecode with
  | (inl err, _) =>
      {| patch_ret := Some (if is_EOF err then ErrUnexpectedEOF else err);
         newfile := []; task := None |}
  | (inr blockSize, deltaDecode) =>
  let rs := {| BlockSize := blockSize; MaxDataOp := MaxDataOp rs |} in
  let t := decode_ops deltaDecode None in
  let run := ApplyDelta rs basisFile (sent t) (checkFile fl) in
  let leave err :=
    {| patch_ret := err; newfile := emitted run; task := Some t |} in
  match failure run with
  | Some err => leave (Some err)
  | None =>
  match decodeError t with
  | Some err => leave (Some err)
  | None =>
      if negb (checkFile fl) then leave None
      else
        match sourceSum t with
        | None => leave (Some NoTargetSumError)
        | Some _ =>
            if negb (bytes_Equal (sourceSum t) (Sum_nil (hashed run)))
            then leave (Some HashNoMatchError)
            else leave None
        end
  end end end end end end.

End Pipelines.

(** *** The comparator *)

Definition min (a b : Z) : Z := if a <? b then a else b.

(** One call of [f.Read(buffer.orig)]: the bytes it stored and the
    error it returned. *)
Record ReadCall : Type := mkReadCall {
  got : list byte;
  read_err : option error
}.

(** An open file as [test] sees it: what [Stat] returns (the size) and
    what the successive calls of [Read] return; once the listed calls
    are used up, [Read] returns [0, io.EOF]. *)
Record File : Type := mkFile {
  Stat : error + Z;
  reads : list ReadCall
}.

(** A [reader] goroutine when it ends: the slices it pushed to its
    source channel, whether it closed the channel, and the error it
    pushed to [errorSource]. *)
Record Reader : Type := mkReader {
  pushed : list (list byte);
  closes : bool;
  reports : option error
}.

Fixpoint reader (calls : list ReadCall) : Reader :=
  match calls with
  | [] => {| pushed := []; closes := true; reports := None |}
  | call :: rest =>
      let push (q : list (list byte)) :=
        match got call with
        | [] => q
        | _ :: _ => got call :: q
        end in
      match read_err call with
      | Some err =>
          if is_EOF err
          then {| pushed := push []; closes := true; reports := None |}
          else {| pushed := push []; closes := false;
                  reports := Some (ErrorReadingFile err) |}
      | None =>
          let r := reader rest in
          {| pushed := push (pushed r); closes := closes r;
             reports := reports r |}
      end
  end.

(** How a run of the merge loop ends: it returns, or it waits for ever
    on a source that is empty and never closed.  [Unfinished] is the
    embedding running out of steps, which [test] never does. *)
Inductive Verdict : Type :=
| Returns (err : option error)
| Blocks
| Unfinished.

(** The scheduling the result depends on once a reader has failed: at
    which iterations the merge loop finds the pushed errors in
    [errorSource], and which file's error is first in that queue.  Any
    schedule is allowed; without a failed reader the queue is empty
    under all of them. *)
Record Schedule : Type := mkSchedule {
  seen : nat -> bool;
  first_file_first : bool
}.

Definition errorSource (sched : Schedule) (r1 r2 : Reader) (iteration : nat)
  : list error :=
  let of_reader (r : Reader) :=
    match reports r with Some err => [err] | None => [] end in
  if seen sched iteration
  then if first_file_first sched
       then of_reader r1 ++ of_reader r2
       else of_reader r2 ++ of_reader r1
  else [].

(** The inner loop: compare [size] bytes, counting [location]. *)
Fixpoint compare_bytes (size : nat) (b1 b2 : list byte) (location : Z)
  : error + Z :=
  match size, b1, b2 with
  | S size', x :: b1', y :: b2' =>
      if negb (Byte.eqb x y)
      then inl (BytesDiffer location)
      else compare_bytes size' b1' b2' (int_add location 1)
  | _, _, _ => inr location
  end.

(** [b, ok = <-source] when [len(b.buf) == 0]. *)
Inductive Receive : Type :=
| Got (buf : list byte) (queue : list (list byte))
| ChannelClosed
| Waits.

Definition receive (buf : list byte) (queue : list (list byte)) (closes : bool)
  : Receive :=
  match buf with
  | _ :: _ => Got buf queue
  | [] =>
      match queue with
      | next :: queue' => Got next queue'
      | [] => if closes then ChannelClosed else Waits
      end
  end.

(** The merge loop of [test], [steps] iterations of it at most.  A
    buffer stands for the bytes it holds: the pool only recycles
    storage, each buffer having one owner at a time. *)
Fixpoint merge (steps : nat) (errors : nat -> list error) (iteration : nat)
         (location : Z)
         (b1 : list byte) (q1 : list (list byte)) (closes1 : bool)
         (b2 : list byte) (q2 : list (list byte)) (closes2 : bool)
  : Verdict :=
  match steps with
  | O => Unfinished
  | S steps' =>
      match errors iteration with
      | err :: _ => Returns (Some err)
      | [] =>
      match receive b1 q1 closes1 with
      | ChannelClosed => Returns None
      | Waits => Blocks
      | Got b1 q1 =>
      match receive b2 q2 closes2 with
      | ChannelClosed => Returns None
      | Waits => Blocks
      | Got b2 q2 =>
          let size :=
            Z.to_nat (min (Z.of_nat (length b1)) (Z.of_nat (length b2))) in
          match compare_bytes size b1 b2 location with
          | inl err => Returns (Some err)
          | inr location =>
              merge steps' errors (S iteration) location
                    (skipn size b1) q1 closes1 (skipn size b2) q2 closes2
          end
      end end end
  end.

(** Iterations that suffice: each one takes a slice off a channel or
    compares at least one byte of the first file. *)
Definition enough (q1 q2 : list (list byte)) : nat :=
  S (length q1 + length q2 + length (concat q1)).

Record TestResult : Type := mkTestResult {
  verdict : Verdict;
  readers_started : bool
}.

(** [test(basis1, basis2)]: the arguments are the outcomes of the two
    [os.Open] and the scheduling of the error queue. *)
Definition test (basis1Open basis2Open : error + File) (sched : Schedule)
  : TestResult :=
  let stop err := {| verdict := Returns (Some err); readers_started := false |} in
  match basis1Open with
  | inl err => stop err
  | inr basis1File =>
  match basis2Open with
  | inl err => stop err
  | inr basis2File =>
  match Stat basis1File with
  | inl err => stop err
  | inr basis1Size =>
  match Stat basis2File with
  | inl err => stop err
  | inr basis2Size =>
      if negb (basis1Size =? basis2Size)
      then stop FileSizeDifferent
      else
        let r1 := reader (reads basis1File) in
        let r2 := reader (reads basis2File) in
        {| verdict :=
             merge (enough (pushed r1) (pushed r2)) (errorSource sched r1 r2)
                   O 0 [] (pushed r1) (closes r1) [] (pushed r2) (closes r2);
           readers_started := true |}
  end end end end.

(** *** The entry point *)

(** The call of a verb's function that [main] makes, with the paths it
    passes. *)
Inductive Call : Type :=
| CallSignature (basis signature : String.string)
| CallDelta (signature newfile delta : String.string)
| CallPatch (basis delta newfile : String.string)
| CallTest (basis1 basis2 : String.string).

(** What [main] logs. *)
Inductive LogLine : Type :=
| MustProvideVerb
| InvalidBlockSize
| UnrecognizedVerb (verb : String.string)
| ErrorIn (verb : String.string) (err : error).

(** How the process ends: its exit status (0 when [main] returns),
    whether [printHelp] ran, the line logged and the call made. *)
Record Exit : Type := mkExit {
  status : Z;
  help : bool;
  logged : option LogLine;
  called : option Call
}.

(** [fl.Arg(i)]: the empty string when the argument is missing. *)
Definition Arg (args : list String.string) (i : nat) : String.string :=
  nth i args "".

Definition usage (line : option LogLine) : Exit :=
  {| status := 1; help := true; logged := line; called := None |}.

(** The [switch verb] of [main]. *)
Definition call_of (verb : String.string) (args : list String.string)
  : option Call :=
  if String.eqb verb "signature"
  then Some (CallSignature (Arg args 1) (Arg args 2))
  else if String.eqb verb "delta"
  then Some (CallDelta (Arg args 1) (Arg args 2) (Arg args 3))
  else if String.eqb verb "patch"
  then Some (CallPatch (Arg args 1) (Arg args 2) (Arg args 3))
  else if String.eqb verb "test"
  then Some (CallTest (Arg args 1) (Arg args 2))
  else None.

(** [main]: [parsed] is the outcome of [fl.Parse(os.Args[1:])], the
    flags and the remaining arguments; [ToLower] is [strings.ToLower];
    [run] is what the function of the verb returns on the files named. *)
Definition main (ToLower : String.string -> String.string)
           (run : Flags -> Call -> option error)
           (parsed : error + Flags * list String.string)
  : Exit :=
  match parsed with
  | inl _ => usage None
  | inr (fl, args) =>
      let verb := ToLower (Arg args 0) in
      if (String.length verb =? 0)%nat then usage (Some MustProvideVerb)
      else if blockSizeKiB fl <=? 0 then usage (Some InvalidBlockSize)
      else
        match call_of verb args with
        | None => usage (Some (UnrecognizedVerb verb))
        | Some call =>
            match run fl call with
            | Some err =>
                {| status := 2; help := false;
                   logged := Some (ErrorIn verb err); called := Some call |}
            | None =>
                {| status := 0; help := false; logged := None;
                   called := Some call |}
            end
        end
  end.

End Main.
Import Main.

(** ** Vocabulary of the statements *)

Definition is_sentinel (op : Operation) : bool := OpType_eqb (Type' op) HASH.

(** The operations a decoder yields before its stream ends or fails. *)
Fixpoint decoded (stream : Decoder) : list Operation :=
  match stream with
  | FOperation op :: rest => op :: decoded rest
  | _ => []
  end.

(** The operations that are instructions for the apply engine. *)
Definition instructions (ops : list Operation) : list Operation :=
  filter (fun op => negb (is_sentinel op)) ops.

(** The last sentinel of a sequence of operations. *)
Fixpoint last_sentinel (ops : list Operation) : option Operation :=
  match ops with
  | [] => None
  | op :: rest =>
      match last_sentinel rest with
      | Some s => Some s
      | None => if is_sentinel op then Some op else None
      end
  end.

(** [sourceSum] after the goroutine decoded [ops], from [sum]. *)
Definition sum_after (ops : list Operation) (sum : slice) : slice :=
  match last_sentinel ops with
  | Some s => Data s
  | None => sum
  end.

(** [patch_ret] once the header has been read, as the tail of [patch]
    computes it. *)
Definition verdict_after {digest : Digest} (fl : Flags) (t : DecodeTask) (run : Run byte)
  : option error :=
  match failure run with
  | Some err => Some err
  | None =>
      match decodeError t with
      | Some err => Some err
      | None =>
          if negb (checkFile fl) then None
          else
            match sourceSum t with
            | None => Some NoTargetSumError
            | Some _ =>
                if negb (bytes_Equal (sourceSum t) (Sum_nil (hashed run)))
                then Some HashNoMatchError
                else None
            end
      end
  end.

(** The sentinel [delta] appends: the digest of what went through its
    hasher. *)
Definition sentinel_of {digest : Digest} (hashed_bytes : list byte) : Operation :=
  {| Type' := HASH; Offset := 0; Length := 0; Data := Sum_nil hashed_bytes |}.

(** The engine as [patch] configures it after reading a header. *)
Definition with_block_size (fl : Flags) (blockSize : Z) : RSync :=
  {| BlockSize := blockSize; MaxDataOp := MaxDataOp (getRsync fl) |}.

(** The call of the delta generator as [delta] makes it, with the header
    already written to [opsEncode]. *)
Definition delta_generation {engine : Engine} (fl : Flags) (blockSize : Z)
           (nfFile : list byte) (hl : list BlockHash) (opsEncode : Encoder)
  : option error * Encoder :=
  engine_call (CreateDelta (with_block_size fl blockSize) nfFile hl (checkFile fl))
              (fun op e => Encode e (FOperation op)) opsEncode.

(** Modelled from the spec: the contract of the sync engine.  Its delta
    generator emits copy and insert operations only (the sentinel is
    added by [delta]); applying, in order, the operations generated from
    the signature of a basis reconstructs the new file, for a positive
    block size; a hasher it is given receives every byte of the new file
    (generation) or of the output (application). *)
Class Faithful (engine : Engine) : Prop := {
  delta_no_sentinel : forall rs nf hl hashing,
    Forall (fun op => Type' op <> HASH) (emitted (CreateDelta rs nf hl hashing));
  apply_reconstructs : forall rs basis nf hashing hashing',
    0 < BlockSize rs ->
    let sg := CreateSignature rs basis in
    let dl := CreateDelta rs nf (emitted sg) hashing in
    let ap := ApplyDelta rs basis (emitted dl) hashing' in
    failure sg = None -> failure dl = None -> failure ap = None ->
    emitted ap = nf;
  delta_hashes_newfile : forall rs nf hl,
    failure (CreateDelta rs nf hl true) = None ->
    hashed (CreateDelta rs nf hl true) = nf;
  apply_hashes_target : forall rs basis ops,
    failure (ApplyDelta rs basis ops true) = None ->
    hashed (ApplyDelta rs basis ops true) = emitted (ApplyDelta rs basis ops true)
}.

(** The first position at which two byte sequences differ. *)
Fixpoint first_difference (a b : list byte) : option nat :=
  match a, b with
  | x :: a', y :: b' =>
      if Byte.eqb x y then option_map S (first_difference a' b') else Some O
  | _, _ => None
  end.

(** [i] is the first position at which [c1] and [c2] differ. *)
Definition first_differ_at (c1 c2 : list byte) (i : nat) : Prop :=
  nth_error c1 i <> nth_error c2 i /\
  forall j, (j < i)%nat -> nth_error c1 j = nth_error c2 j.

(** The bytes a sequence of [Read] calls delivers up to its first error,
    and whether that error is the end of the file. *)
Fixpoint delivered (calls : list ReadCall) : list byte :=
  match calls with
  | [] => []
  | call :: rest =>
      match read_err call with
      | Some _ => got call
      | None => got call ++ delivered rest
      end
  end.

Fixpoint reaches_EOF (calls : list ReadCall) : bool :=
  match calls with
  | [] => true
  | call :: rest =>
      match read_err call with
      | Some err => is_EOF err
      | None => reaches_EOF rest
      end
  end.

(** An open file that holds [content] and can be read to its end; its
    size is an [int64]. *)
Definition holds (f : File) (content : list byte) : Prop :=
  Stat f = inr (Z.of_nat (length content)) /\
  delivered (reads f) = content /\
  reaches_EOF (reads f) = true /\
  Z.of_nat (length content) < 2 ^ 63.

(** The error of the first [Read] call that returns one. *)
Fixpoint first_read_error (calls : list ReadCall) : option error :=
  match calls with
  | [] => None
  | call :: rest =>
      match read_err call with
      | Some err => Some err
      | None => first_read_error rest
      end
  end.

(** The verbs [main] knows. *)
Definition known_verb (verb : String.string) : bool :=
  String.eqb verb "signature" || String.eqb verb "delta"
  || String.eqb verb "patch" || String.eqb verb "test".

(** ** Instances used to exercise the statements *)

Module Sample.

(** A digest of sixteen bytes: the input, padded or cut. *)
Definition pad16 (written : list byte) : list byte :=
  firstn 16 (written ++ repeat x00 16).

Definition pad16_Size : forall written, length (pad16 written) = 16%nat.
Proof.
  intros written. unfold pad16.
  rewrite length_firstn, length_app, repeat_length. lia.
Qed.

Definition digest : Digest := {| md5_Sum := pad16; md5_Size := pad16_Size |}.

(** What one operation contributes to the new file. *)
Definition effect (basis : list byte) (op : Operation) : list byte :=
  match Type' op with
  | COPY => firstn (Z.to_nat (Length op)) (skipn (Z.to_nat (Offset op)) basis)
  | INSERT => contents (Data op)
  | HASH => []
  end.

(** An engine that matches nothing: no block hashes, the new file as
    one literal, application by concatenation of the effects. *)
Definition literal_engine : Engine :=
  {| CreateSignature := fun _ _ =>
       {| emitted := []; hashed := []; failure := None |};
     CreateDelta := fun _ newfile _ hashing =>
       {| emitted :=
            [{| Type' := INSERT; Offset := 0; Length := 0;
                Data := Some newfile |}];
          hashed := if hashing then newfile else [];
          failure := None |};
     ApplyDelta := fun _ basis ops hashing =>
       let target := concat (map (effect basis) ops) in
       {| emitted := target;
          hashed := if hashing then target else [];
          failure := None |} |}.

(** An engine whose delta generator fails after one literal. *)
Definition failing_engine : Engine :=
  {| CreateSignature := CreateSignature (Engine := literal_engine);
     CreateDelta := fun _ newfile _ hashing =>
       {| emitted :=
            [{| Type' := INSERT; Offset := 0; Length := 0;
                Data := Some (firstn 1 newfile) |}];
          hashed := if hashing then firstn 1 newfile else [];
          failure := Some (Foreign "read: input/output error") |};
     ApplyDelta := ApplyDelta (Engine := literal_engine) |}.

Definition flags (check : bool) : Flags :=
  {| blockSizeKiB := 6; checkFile := check |}.

Definition abc : list byte := ["a"; "b"; "c"]%byte.
Definition abd : list byte := ["a"; "b"; "d"]%byte.

Definition insert_abd : Operation :=
  {| Type' := INSERT; Offset := 0; Length := 0; Data := Some abd |}.

(** A sentinel that carries no payload. *)
Definition nil_sentinel : Operation :=
  {| Type' := HASH; Offset := 0; Length := 0; Data := None |}.

(** The records of a delta file made with the check: one literal, then
    the sentinel. *)
Definition checked_records : Decoder :=
  [FOperation insert_abd; FOperation (sentinel_of (digest := digest) abd)].

Definition nil_sentinel_records : Decoder := [FOperation nil_sentinel].

Definition corrupt : Frame := FBad (Foreign "gob: bad data").

(** The engine's application of no instruction to an empty basis, with a
    hasher. *)
Definition empty_application : Run byte :=
  ApplyDelta (Engine := literal_engine)
             (with_block_size (flags true) 6144) []
             (instructions (decoded nil_sentinel_records)) true.

(** Two files read in different slices. *)
Definition file_abc : File :=
  {| Stat := inr 3;
     reads := [{| got := ["a"; "b"]%byte; read_err := None |};
               {| got := []; read_err := None |};
               {| got := ["c"]%byte; read_err := None |};
               {| got := []; read_err := Some EOF |}] |}.

Definition file_abd : File :=
  {| Stat := inr 3;
     reads := [{| got := ["a"]%byte; read_err := None |};
               {| got := ["b"; "d"]%byte; read_err := Some EOF |}] |}.

Definition any_schedule : Schedule :=
  {| seen := fun _ => true; first_file_first := true |}.

(** A file whose size is 3 and that delivers two bytes only. *)
Definition file_ab_of_3 : File :=
  {| Stat := inr 3;
     reads := [{| got := ["a"; "b"]%byte; read_err := Some EOF |}] |}.

(** A file whose second read fails. *)
Definition file_a_then_error : File :=
  {| Stat := inr 3;
     reads := [{| got := ["a"]%byte; read_err := None |};
               {| got := []; read_err := Some (Foreign "read: input/output error") |}] |}.

Definition never_seen : Schedule :=
  {| seen := fun _ => false; first_file_first := true |}.

Definition block_c : BlockHash :=
  {| Index := 0; StrongHash := ["c"]%byte; WeakHash := 99 |}.

(** ASCII lower case, for the verbs. *)
Definition lower_ascii (c : Ascii.ascii) : Ascii.ascii :=
  let n := Ascii.nat_of_ascii c in
  if ((65 <=? n) && (n <=? 90))%nat then Ascii.ascii_of_nat (n + 32) else c.

Fixpoint lower (s : String.string) : String.string :=
  match s with
  | String.EmptyString => String.EmptyString
  | String.String c rest => String.String (lower_ascii c) (lower rest)
  end.

(** A world in which every verb fails to open its first file. *)
Definition no_such_file (fl : Flags) (call : Call) : option error :=
  Some (Foreign "open: no such file or directory").

End Sample.

(** ** Bytes *)

Lemma bytes_eqb_eq : forall a b, bytes_eqb a b = true <-> a = b.
Proof.
  induction a as [|x a IH]; destruct b as [|y b]; simpl; split;
    try congruence; try reflexivity.
  - intros H. apply andb_true_iff in H. destruct H as [Hxy Hab].
    apply Byte.byte_dec_bl in Hxy. apply IH in Hab. congruence.
  - intros H. injection H as -> ->. apply andb_true_iff. split.
    + now apply Byte.byte_dec_lb.
    + now apply IH.
Qed.

Lemma byte_eqb_refl : forall x, Byte.eqb x x = true.
Proof. intros x. now apply Byte.byte_dec_lb. Qed.

Lemma byte_eqb_neq : forall x y, x <> y -> Byte.eqb x y = false.
Proof.
  intros x y H. destruct (Byte.eqb x y) eqn:E; [|reflexivity].
  apply Byte.byte_dec_bl in E. contradiction.
Qed.

Lemma int_wrap_small : forall z, - 2 ^ 63 <= z < 2 ^ 63 -> int_wrap z = z.
Proof.
  intros z H. unfold int_wrap. rewrite Z.mod_small; lia.
Qed.

Lemma digest_not_empty {digest : Digest} : forall written, md5_Sum written <> [].
Proof.
  intros written H. pose proof (md5_Size written) as L.
  rewrite H in L. discriminate L.
Qed.

(** ** The decode goroutine of [patch] *)

Section DecodeTask.

(** One turn of the goroutine's loop is one call of [Decode]. *)
Lemma decode_ops_Decode : forall stream sum,
    decode_ops stream sum =
    match Decode as_Operation stream with
    | (inl err, _) =>
        {| sent := []; sourceSum := sum;
           decodeError := if is_EOF err then None else Some err;
           closed := true |}
    | (inr op, rest) =>
        if OpType_eqb (Type' op) HASH
        then decode_ops rest (Data op)
        else
          let t := decode_ops rest sum in
          {| sent := op :: sent t; sourceSum := sourceSum t;
             decodeError := decodeError t; closed := closed t |}
    end.
Proof.
  intros [|f rest] sum; [reflexivity|]. simpl.
  destruct (as_Operation f) as [err|op]; [|reflexivity].
  now destruct (is_EOF err).
Qed.

(** One turn of the loop of [delta] is one call of [Decode]. *)
Lemma load_hashes_Decode : forall stream hl,
    load_hashes stream hl =
    match Decode as_BlockHash stream with
    | (inl err, _) => if is_EOF err then inr hl else inl err
    | (inr bl, rest) => load_hashes rest (hl ++ [bl])
    end.
Proof. intros [|f rest] hl; reflexivity. Qed.

(** A nil payload never equals a digest, which has [md5.Size] bytes. *)
Lemma nil_payload_differs {digest : Digest} : forall written,
    bytes_Equal None (Sum_nil written) = false.
Proof.
  intros written. unfold bytes_Equal, Sum_nil. simpl.
  pose proof (digest_not_empty written) as H.
  destruct (md5_Sum written); [contradiction | reflexivity].
Qed.

Lemma decode_ops_sent : forall stream sum,
    sent (decode_ops stream sum) = instructions (decoded stream).
Proof.
  induction stream as [|f rest IH]; intros sum; [reflexivity|].
  destruct f as [n|b|op|err]; simpl; try reflexivity.
  - unfold is_sentinel. destruct (OpType_eqb (Type' op) HASH); simpl.
    + apply IH.
    + f_equal. apply IH.
  - now destruct (is_EOF err).
Qed.

Lemma decode_ops_sourceSum : forall stream sum,
    sourceSum (decode_ops stream sum) = sum_after (decoded stream) sum.
Proof.
  induction stream as [|f rest IH]; intros sum; [reflexivity|].
  destruct f as [n|b|op|err]; simpl; try reflexivity.
  - unfold sum_after in *. simpl. unfold is_sentinel.
    destruct (OpType_eqb (Type' op) HASH) eqn:E; simpl.
    + rewrite IH. now destruct (last_sentinel (decoded rest)).
    + rewrite IH. now destruct (last_sentinel (decoded rest)).
  - now destruct (is_EOF err).
Qed.

Lemma decode_ops_closed : forall stream sum,
    closed (decode_ops stream sum) = true.
Proof.
  induction stream as [|f rest IH]; intros sum; [reflexivity|].
  destruct f as [n|b|op|err]; simpl; try reflexivity.
  - destruct (OpType_eqb (Type' op) HASH); simpl; apply IH.
  - now destruct (is_EOF err).
Qed.

(** Reading operations only never fails. *)
Lemma decode_ops_well_formed : forall ops sum,
    decodeError (decode_ops (map FOperation ops) sum) = None.
Proof.
  induction ops as [|op ops IH]; intros sum; [reflexivity|].
  simpl. destruct (OpType_eqb (Type' op) HASH); simpl; apply IH.
Qed.

(** The error of the first frame that is not an operation is kept. *)
Lemma decode_ops_failure : forall ops f rest err sum,
    as_Operation f = inl err ->
    is_EOF err = false ->
    decodeError (decode_ops (map FOperation ops ++ f :: rest) sum) = Some err.
Proof.
  induction ops as [|op ops IH]; intros f rest err sum Hf Herr.
  - simpl. rewrite Hf, Herr. reflexivity.
  - simpl. destruct (OpType_eqb (Type' op) HASH); simpl; now apply IH.
Qed.

Lemma decoded_operations : forall ops, decoded (map FOperation ops) = ops.
Proof. induction ops as [|op ops IH]; simpl; congruence. Qed.

Lemma decoded_until_failure : forall ops f rest err,
    as_Operation f = inl err ->
    decoded (map FOperation ops ++ f :: rest) = ops.
Proof.
  induction ops as [|op ops IH]; intros f rest err Hf; simpl.
  - destruct f; simpl in Hf; try reflexivity; discriminate.
  - f_equal. eapply IH; eassumption.
Qed.

Lemma instructions_no_sentinel : forall ops,
    Forall (fun op => Type' op <> HASH) (instructions ops).
Proof.
  intros ops. apply Forall_forall. intros op Hin.
  apply filter_In in Hin. destruct Hin as [_ H].
  unfold is_sentinel in H. intros E. rewrite E in H. discriminate.
Qed.

Lemma instructions_all : forall ops,
    Forall (fun op => Type' op <> HASH) ops -> instructions ops = ops.
Proof.
  induction 1 as [|op ops Hop _ IH]; [reflexivity|].
  unfold instructions in *. simpl. unfold is_sentinel.
  destruct (Type' op); simpl; try (f_equal; exact IH).
  congruence.
Qed.

Lemma instructions_app : forall a b,
    instructions (a ++ b) = instructions a ++ instructions b.
Proof. intros. unfold instructions. apply filter_app. Qed.

Lemma last_sentinel_none : forall ops,
    Forall (fun op => Type' op <> HASH) ops -> last_sentinel ops = None.
Proof.
  induction 1 as [|op ops Hop _ IH]; [reflexivity|].
  simpl. rewrite IH. unfold is_sentinel.
  destruct (Type' op); simpl; congruence.
Qed.

Lemma last_sentinel_snoc : forall ops s,
    is_sentinel s = true -> last_sentinel (ops ++ [s]) = Some s.
Proof.
  induction ops as [|op ops IH]; intros s Hs; simpl.
  - now rewrite Hs.
  - now rewrite IH.
Qed.

End DecodeTask.

(** ** [patch] *)

Section Patch.

Context {engine : Engine} {digest : Digest}.

Lemma patch_after_header : forall fl basis blockSize stream,
    let t := decode_ops stream None in
    let run := ApplyDelta (with_block_size fl blockSize) basis (sent t)
                          (checkFile fl) in
    patch fl (inr basis) (inr (FInt blockSize :: stream)) None =
    {| patch_ret := verdict_after fl t run;
       newfile := emitted run;
       task := Some t |}.
Proof.
  intros fl basis blockSize stream t run.
  unfold patch, verdict_after. simpl.
  fold t. change (ApplyDelta _ basis (sent t) (checkFile fl)) with run.
  destruct (failure run); [reflexivity|].
  destruct (decodeError t); [reflexivity|].
  destruct (negb (checkFile fl)); [reflexivity|].
  destruct (sourceSum t); [|reflexivity].
  now destruct (negb (bytes_Equal _ _)).
Qed.

Lemma patch_truncated_header : forall fl basis stream,
    fst (Decode as_int stream) = inl EOF ->
    patch_ret (patch fl (inr basis) (inr stream) None) = Some ErrUnexpectedEOF.
Proof.
  intros fl basis stream H. unfold patch.
  destruct (Decode as_int stream) as [[err|n] d]; simpl in H; [|discriminate].
  injection H as ->. reflexivity.
Qed.

Lemma patch_header_error : forall fl basis stream err,
    fst (Decode as_int stream) = inl err ->
    is_EOF err = false ->
    patch_ret (patch fl (inr basis) (inr stream) None) = Some err.
Proof.
  intros fl basis stream err H Herr. unfold patch.
  destruct (Decode as_int stream) as [[err'|n] d]; simpl in H; [|discriminate].
  injection H as ->. simpl. now rewrite Herr.
Qed.

End Patch.

(** ** The framing codec and the push callbacks *)

Section Framing.

Lemma Encode_ok : forall e f e',
    Encode e f = (None, e') -> written e' = written e ++ [f].
Proof.
  intros e f e' H. unfold Encode in H.
  destruct (room e) as [[|k]|]; inversion H; reflexivity.
Qed.

Lemma Encode_error : forall e f err e',
    Encode e f = (Some err, e') -> e' = e.
Proof.
  intros e f err e' H. unfold Encode in H.
  destruct (room e) as [[|k]|]; inversion H; reflexivity.
Qed.

Lemma Encode_unlimited : forall e f,
    room e = None ->
    Encode e f = (None, {| written := written e ++ [f]; room := None |}).
Proof. intros e f H. unfold Encode. now rewrite H. Qed.

Variable A : Type.
Variable frame : A -> Frame.

Let callback : A -> Encoder -> option error * Encoder :=
  fun v e => Encode e (frame v).

(** Whatever happens, the file holds a prefix of the values pushed, in
    their order. *)
Lemma push_each_prefix : forall values e r e',
    push_each callback values e = (r, e') ->
    exists k, written e' = written e ++ map frame (firstn k values).
Proof.
  induction values as [|v values IH]; intros e r e' H; simpl in H.
  - inversion H; subst. exists O. simpl. now rewrite app_nil_r.
  - unfold callback in H at 1. destruct (Encode e (frame v)) as [[err|] e1] eqn:E.
    + inversion H; subst. apply Encode_error in E. subst e'.
      exists O. simpl. now rewrite app_nil_r.
    + apply Encode_ok in E. apply IH in H. destruct H as [k Hk].
      exists (S k). simpl. rewrite Hk, E, <- app_assoc. reflexivity.
Qed.

(** Without an error the file holds every value pushed. *)
Lemma push_each_all : forall values e e',
    push_each callback values e = (None, e') ->
    written e' = written e ++ map frame values.
Proof.
  induction values as [|v values IH]; intros e e' H; simpl in H.
  - inversion H; subst. now rewrite app_nil_r.
  - unfold callback in H at 1. destruct (Encode e (frame v)) as [[err|] e1] eqn:E.
    + discriminate H.
    + apply Encode_ok in E. apply IH in H.
      simpl. rewrite H, E, <- app_assoc. reflexivity.
Qed.

Lemma push_each_unlimited : forall values e,
    room e = None ->
    push_each callback values e =
    (None, {| written := written e ++ map frame values; room := None |}).
Proof.
  induction values as [|v values IH]; intros e H; simpl.
  - rewrite app_nil_r. destruct e; simpl in *; now subst.
  - unfold callback at 1. rewrite Encode_unlimited by assumption.
    rewrite IH by reflexivity. simpl. now rewrite <- app_assoc.
Qed.

Lemma engine_call_prefix : forall (run : Run A) e r e',
    engine_call run callback e = (r, e') ->
    exists k, written e' = written e ++ map frame (firstn k (emitted run)).
Proof.
  intros run e r e' H. unfold engine_call in H.
  destruct (push_each callback (emitted run) e) as [[err|] e1] eqn:E;
    inversion H; subst; eapply push_each_prefix; eassumption.
Qed.

Lemma engine_call_ok : forall (run : Run A) e e',
    engine_call run callback e = (None, e') ->
    written e' = written e ++ map frame (emitted run) /\ failure run = None.
Proof.
  intros run e e' H. unfold engine_call in H.
  destruct (push_each callback (emitted run) e) as [[err|] e1] eqn:E;
    [discriminate H|].
  injection H as Hf He. subst e1.
  split; [now apply push_each_all | assumption].
Qed.

End Framing.

Lemma load_hashes_records : forall blocks hl,
    load_hashes (map FBlockHash blocks) hl = inr (hl ++ blocks).
Proof.
  induction blocks as [|b blocks IH]; intros hl; simpl.
  - now rewrite app_nil_r.
  - rewrite IH, <- app_assoc. reflexivity.
Qed.

(** ** [signature] and [delta] *)

Section Generation.

Context {engine : Engine} {digest : Digest}.

Lemma signature_success : forall fl basis file,
    ret (signature fl (inr basis) (inr file)) = None ->
    out (signature fl (inr basis) (inr file)) =
      FInt (BlockSize (getRsync fl))
      :: map FBlockHash (emitted (CreateSignature (getRsync fl) basis))
    /\ failure (CreateSignature (getRsync fl) basis) = None.
Proof.
  intros fl basis file. unfold signature.
  destruct (Encode (NewEncoder file) (FInt (BlockSize (getRsync fl))))
    as [[err|] e] eqn:E; simpl; [discriminate|].
  apply Encode_ok in E. simpl in E.
  destruct (engine_call _ _ e) as [r e'] eqn:C. simpl. intros ->.
  apply (engine_call_ok FBlockHash) in C. destruct C as [W F].
  rewrite W, E. split; [reflexivity | assumption].
Qed.

Lemma delta_truncated_header : forall fl stream nf file,
    fst (Decode as_int stream) = inl EOF ->
    ret (delta fl (inr stream) (inr nf) (inr file)) = Some ErrUnexpectedEOF.
Proof.
  intros fl stream nf file H. unfold delta.
  destruct (Decode as_int stream) as [[err|n] d]; simpl in H; [|discriminate].
  injection H as ->. reflexivity.
Qed.

Lemma delta_header_error : forall fl stream nf file err,
    fst (Decode as_int stream) = inl err ->
    is_EOF err = false ->
    ret (delta fl (inr stream) (inr nf) (inr file)) = Some err.
Proof.
  intros fl stream nf file err H Herr. unfold delta.
  destruct (Decode as_int stream) as [[err'|n] d]; simpl in H; [|discriminate].
  injection H as ->. simpl. now rewrite Herr.
Qed.

(** [delta] from the call of the generator on. *)
Lemma delta_after_header : forall fl stream nf file blockSize rest hl e,
    Decode as_int stream = (inr blockSize, rest) ->
    load_hashes rest [] = inr hl ->
    Encode (NewEncoder file) (FInt blockSize) = (None, e) ->
    delta fl (inr stream) (inr nf) (inr file) =
    match delta_generation fl blockSize nf hl e with
    | (Some err, e') => {| ret := Some err; out := written e' |}
    | (None, e') =>
        if checkFile fl
        then
          let (err, e'') :=
            Encode e'
              (FOperation
                 (sentinel_of
                    (hashed (CreateDelta (with_block_size fl blockSize) nf hl
                                         (checkFile fl))))) in
          {| ret := err; out := written e'' |}
        else {| ret := None; out := written e' |}
    end.
Proof.
  intros fl stream nf file blockSize rest hl e HD HL HE.
  unfold delta. rewrite HD, HL. simpl. rewrite HE. reflexivity.
Qed.

Lemma delta_success : forall fl stream nf file blockSize rest hl,
    Decode as_int stream = (inr blockSize, rest) ->
    load_hashes rest [] = inr hl ->
    ret (delta fl (inr stream) (inr nf) (inr file)) = None ->
    let run := CreateDelta (with_block_size fl blockSize) nf hl (checkFile fl) in
    out (delta fl (inr stream) (inr nf) (inr file)) =
      FInt blockSize
      :: map FOperation
           (emitted run
            ++ if checkFile fl then [sentinel_of (hashed run)] else [])
    /\ failure run = None.
Proof.
  intros fl stream nf file blockSize rest hl HD HL.
  destruct (Encode (NewEncoder file) (FInt blockSize)) as [[err|] e] eqn:HE.
  - unfold delta. rewrite HD, HL. simpl. rewrite HE. discriminate.
  - rewrite (@delta_after_header fl stream nf file _ _ _ _ HD HL HE).
    apply Encode_ok in HE. simpl in HE.
    unfold delta_generation.
    destruct (engine_call _ _ e) as [[err|] e'] eqn:C; [discriminate|].
    apply (engine_call_ok FOperation) in C. destruct C as [W F].
    destruct (checkFile fl); simpl.
    + destruct (Encode e' _) as [r e''] eqn:S. simpl. intros ->.
      apply Encode_ok in S. rewrite S, W, HE, map_app. simpl.
      split; [reflexivity | assumption].
    + intros _. rewrite W, HE, app_nil_r. split; [reflexivity | assumption].
Qed.

(** When the generator returns an error, [delta] returns it and the
    file holds the header and operations of the generator only. *)
Lemma delta_generator_error : forall fl stream nf file blockSize rest hl e err,
    Decode as_int stream = (inr blockSize, rest) ->
    load_hashes rest [] = inr hl ->
    Encode (NewEncoder file) (FInt blockSize) = (None, e) ->
    fst (delta_generation fl blockSize nf hl e) = Some err ->
    let run := CreateDelta (with_block_size fl blockSize) nf hl (checkFile fl) in
    ret (delta fl (inr stream) (inr nf) (inr file)) = Some err /\
    exists k,
      out (delta fl (inr stream) (inr nf) (inr file)) =
      FInt blockSize :: map FOperation (firstn k (emitted run)).
Proof.
  intros fl stream nf file blockSize rest hl e err HD HL HE HG run.
  rewrite (@delta_after_header fl stream nf file _ _ _ _ HD HL HE).
  apply Encode_ok in HE. simpl in HE.
  destruct (delta_generation fl blockSize nf hl e) as [r e'] eqn:G.
  simpl in HG. subst r. simpl. split; [reflexivity|].
  unfold delta_generation in G.
  apply (engine_call_prefix FOperation) in G. destruct G as [k W].
  exists k. rewrite W, HE. reflexivity.
Qed.

(** On a device with room, [signature] and [delta] return no error as
    soon as the engine does not fail. *)
Lemma signature_completes : forall fl basis,
    failure (CreateSignature (getRsync fl) basis) = None ->
    ret (signature fl (inr basis) (inr None)) = None.
Proof.
  intros fl basis H. unfold signature.
  rewrite Encode_unlimited by reflexivity.
  unfold engine_call.
  rewrite (push_each_unlimited FBlockHash) by reflexivity.
  exact H.
Qed.

Lemma delta_completes : forall fl blockSize hl nf,
    failure (CreateDelta (with_block_size fl blockSize) nf hl (checkFile fl))
    = None ->
    ret (delta fl (inr (FInt blockSize :: map FBlockHash hl)) (inr nf)
               (inr None)) = None.
Proof.
  intros fl blockSize hl nf H.
  change (ret (delta fl (inr (FInt blockSize :: map FBlockHash hl : Decoder))
                     (inr nf) (inr (None : Device))) = None).
  rewrite (@delta_after_header fl (FInt blockSize :: map FBlockHash hl) nf None
             blockSize (map FBlockHash hl) hl
             {| written := [FInt blockSize]; room := None |}
             eq_refl (load_hashes_records hl []) eq_refl).
  unfold delta_generation, engine_call.
  rewrite (push_each_unlimited FOperation) by reflexivity.
  rewrite H. destruct (checkFile fl); [|reflexivity].
  rewrite Encode_unlimited by reflexivity. reflexivity.
Qed.

End Generation.

(** ** Properties of [patch] *)

(** C5.  In every run of [patch] that starts its decode goroutine, the
    operations offered on the channel are the decoded operations that are
    not sentinels, in the order decoded (so decoding goes on after a
    sentinel and no sentinel reaches the apply engine), and the payload
    of a decoded sentinel is what [sourceSum] holds, the last one
    decoded winning. *)
Theorem patch_sentinel_filtered :
  forall (engine : Engine) (digest : Digest) fl basis blockSize stream,
    let r := patch fl (inr basis) (inr (FInt blockSize :: stream)) None in
    exists t,
      task r = Some t /\
      sent t = instructions (decoded stream) /\
      Forall (fun op => Type' op <> HASH) (sent t) /\
      sourceSum t = sum_after (decoded stream) None /\
      newfile r =
        emitted (ApplyDelta (with_block_size fl blockSize) basis
                            (instructions (decoded stream)) (checkFile fl)).
Proof.
  intros engine digest fl basis blockSize stream r.
  exists (decode_ops stream None). subst r.
  rewrite patch_after_header. simpl.
  rewrite decode_ops_sent, decode_ops_sourceSum.
  repeat split; try reflexivity.
  apply instructions_no_sentinel.
Qed.

(** C1 (amended).  With the check flag set, when neither the apply step
    nor the decode step fails: [patch] returns [NoTargetSumError] if no
    sentinel was decoded or the last sentinel decoded carries a nil
    payload; it returns [HashNoMatchError] if that payload is not nil and
    differs from the digest of the output; it returns no error if the
    payload is the digest. *)
Theorem patch_check_verdict :
  forall (engine : Engine) (digest : Digest) fl basis blockSize stream,
    checkFile fl = true ->
    decodeError (decode_ops stream None) = None ->
    let run := ApplyDelta (with_block_size fl blockSize) basis
                          (instructions (decoded stream)) true in
    failure run = None ->
    let r := patch fl (inr basis) (inr (FInt blockSize :: stream)) None in
    match last_sentinel (decoded stream) with
    | None => patch_ret r = Some NoTargetSumError
    | Some s =>
        match Data s with
        | None => patch_ret r = Some NoTargetSumError
        | Some payload =>
            (payload <> md5_Sum (hashed run) ->
             patch_ret r = Some HashNoMatchError) /\
            (payload = md5_Sum (hashed run) -> patch_ret r = None)
        end
    end.
Proof.
  intros engine digest fl basis blockSize stream Hc Hd run Hf r.
  subst r. rewrite patch_after_header. simpl. unfold verdict_after.
  rewrite decode_ops_sent, decode_ops_sourceSum, Hc, Hd. fold run.
  rewrite Hf. simpl. unfold sum_after.
  destruct (last_sentinel (decoded stream)) as [s|]; [|reflexivity].
  destruct (Data s) as [payload|]; [|reflexivity].
  unfold bytes_Equal, Sum_nil. simpl.
  destruct (bytes_eqb payload (md5_Sum (hashed run))) eqn:E; simpl.
  - apply bytes_eqb_eq in E. split; [contradiction | reflexivity].
  - split; [reflexivity|]. intros H. apply bytes_eqb_eq in H. congruence.
Qed.

(** C6.  When the decode goroutine meets a frame whose decoding fails
    with an error other than [io.EOF] and the apply step returns no
    error, [patch] returns that decode error; the goroutine has closed
    the channel, after offering the instructions decoded before. *)
Theorem patch_decode_error_surfaces :
  forall (engine : Engine) (digest : Digest) fl basis blockSize ops f rest err,
    as_Operation f = inl err ->
    is_EOF err = false ->
    failure (ApplyDelta (with_block_size fl blockSize) basis
                        (instructions ops) (checkFile fl)) = None ->
    let r := patch fl (inr basis)
                   (inr (FInt blockSize :: map FOperation ops ++ f :: rest))
                   None in
    patch_ret r = Some err /\
    exists t,
      task r = Some t /\ decodeError t = Some err /\ closed t = true /\
      sent t = instructions ops.
Proof.
  intros engine digest fl basis blockSize ops f rest err Hf Herr Hrun r.
  subst r. rewrite patch_after_header. simpl. unfold verdict_after.
  rewrite decode_ops_sent, (@decoded_until_failure ops f rest err Hf), Hrun.
  rewrite (@decode_ops_failure ops f rest err None Hf Herr).
  split; [reflexivity|].
  exists (decode_ops (map FOperation ops ++ f :: rest) None).
  rewrite decode_ops_sent, (@decoded_until_failure ops f rest err Hf).
  rewrite (@decode_ops_failure ops f rest err None Hf Herr), decode_ops_closed.
  repeat split.
Qed.

Lemma patch_check_verdict_witness :
  patch_ret
    (patch (engine := Sample.literal_engine) (digest := Sample.digest)
           (Sample.flags true) (inr Sample.abc)
           (inr (FInt 6144 :: Sample.checked_records)) None) = None.
Proof.
  pose proof (@patch_check_verdict Sample.literal_engine Sample.digest
                (Sample.flags true) Sample.abc 6144 Sample.checked_records
                eq_refl eq_refl eq_refl) as H.
  simpl in H. apply H. reflexivity.
Defined.

(** C1, as stated, fails on a delta stream whose sentinel carries no
    payload: the sentinel is decoded and captured, its (empty) payload
    differs from the sixteen bytes of the digest, neither step fails, and
    [patch] returns [NoTargetSumError], not [HashNoMatchError]. *)
Lemma patch_nil_sentinel_reported_missing :
  checkFile (Sample.flags true) = true /\
  decodeError (decode_ops Sample.nil_sentinel_records None) = None /\
  failure Sample.empty_application = None /\
  last_sentinel (decoded Sample.nil_sentinel_records) = Some Sample.nil_sentinel /\
  bytes_Equal (Data Sample.nil_sentinel)
              (Sum_nil (digest := Sample.digest) (hashed Sample.empty_application))
  = false /\
  patch_ret
    (patch (engine := Sample.literal_engine) (digest := Sample.digest)
           (Sample.flags true) (inr [])
           (inr (FInt 6144 :: Sample.nil_sentinel_records)) None)
  = Some NoTargetSumError /\
  patch_ret
    (patch (engine := Sample.literal_engine) (digest := Sample.digest)
           (Sample.flags true) (inr [])
           (inr (FInt 6144 :: Sample.nil_sentinel_records)) None)
  <> Some HashNoMatchError.
Proof.
  repeat split; try reflexivity. discriminate.
Qed.

Lemma patch_decode_error_surfaces_witness :
  patch_ret
    (patch (engine := Sample.literal_engine) (digest := Sample.digest)
           (Sample.flags true) (inr Sample.abc)
           (inr (FInt 6144
                 :: map FOperation [Sample.insert_abd] ++ Sample.corrupt :: []))
           None)
  = Some (Foreign "gob: bad data").
Proof.
  apply (@patch_decode_error_surfaces Sample.literal_engine Sample.digest
           (Sample.flags true) Sample.abc 6144 [Sample.insert_abd]
           Sample.corrupt [] (Foreign "gob: bad data")
           eq_refl eq_refl eq_refl).
Defined.

Lemma delta_success_records :
  forall (engine : Engine) (digest : Digest) fl stream nf file,
    checkFile fl = true ->
    ret (delta fl (inr stream) (inr nf) (inr file)) = None ->
    exists blockSize ops s,
      out (delta fl (inr stream) (inr nf) (inr file)) =
        FInt blockSize :: map FOperation (ops ++ [s]) /\
      is_sentinel s = true.
Proof.
  intros engine digest fl stream nf file Hc Hr.
  destruct (Decode as_int stream) as [[err|blockSize] rest] eqn:HD.
  - unfold delta in Hr. rewrite HD in Hr. discriminate Hr.
  - destruct (load_hashes rest []) as [err|hl] eqn:HL.
    + unfold delta in Hr. rewrite HD, HL in Hr. discriminate Hr.
    + destruct (@delta_success engine digest fl stream nf file blockSize rest hl
                  HD HL Hr) as [Hout _].
      rewrite Hc in Hout. eexists _, _, _. split; [exact Hout | reflexivity].
Qed.

(** C10.  With the check flag off, whatever follows the header of the
    delta stream: the sentinels decoded are not offered to the apply
    engine, and once the apply step returns no error [patch] returns what
    the decoding left, whether or not a sentinel is there and whatever it
    carries: no error for a stream of operation records.  The new file
    is what a checked [patch] of the same stream writes, the engine
    writing the same output with or without a hasher; a delta made with
    the check on is a stream of operation records that ends with a
    sentinel. *)
Theorem patch_unchecked_ignores_sentinel :
  forall (engine : Engine) (digest : Digest) fl basis blockSize stream,
    checkFile fl = false ->
    let t := decode_ops stream None in
    let run := ApplyDelta (with_block_size fl blockSize) basis
                          (instructions (decoded stream)) false in
    let r := patch fl (inr basis) (inr (FInt blockSize :: stream)) None in
    task r = Some t /\
    sent t = instructions (decoded stream) /\
    Forall (fun op => Type' op <> HASH) (sent t) /\
    newfile r = emitted run /\
    (failure run = None -> patch_ret r = decodeError t) /\
    (forall ops,
        stream = map FOperation ops -> failure run = None ->
        patch_ret r = None) /\
    (forall fl',
        checkFile fl' = true ->
        emitted (ApplyDelta (with_block_size fl' blockSize) basis
                            (instructions (decoded stream)) true)
        = emitted run ->
        newfile (patch fl' (inr basis) (inr (FInt blockSize :: stream)) None)
        = newfile r) /\
    (forall fl' sig nf file,
        checkFile fl' = true ->
        ret (delta fl' (inr sig) (inr nf) (inr file)) = None ->
        exists blockSize' ops' s,
          out (delta fl' (inr sig) (inr nf) (inr file)) =
            FInt blockSize' :: map FOperation (ops' ++ [s]) /\
          is_sentinel s = true).
Proof.
  intros engine digest fl basis blockSize stream Hc t run r.
  assert (Hr : r = {| patch_ret := verdict_after fl t run;
                      newfile := emitted run;
                      task := Some t |}).
  { subst r t run. rewrite patch_after_header.
    rewrite decode_ops_sent, Hc. reflexivity. }
  assert (Hsent : sent t = instructions (decoded stream))
    by apply decode_ops_sent.
  repeat match goal with |- _ /\ _ => split end.
  - now rewrite Hr.
  - exact Hsent.
  - rewrite Hsent. apply instructions_no_sentinel.
  - now rewrite Hr.
  - intros Hf. rewrite Hr. simpl. unfold verdict_after.
    rewrite Hf, Hc. now destruct (decodeError t).
  - intros ops Hs Hf. rewrite Hr. simpl. unfold verdict_after.
    rewrite Hf, Hc. subst t. rewrite Hs, decode_ops_well_formed. reflexivity.
  - intros fl' Hc' Hsame. rewrite Hr.
    rewrite patch_after_header. simpl.
    rewrite decode_ops_sent, Hc'. exact Hsame.
  - intros fl' sig nf file. apply delta_success_records.
Qed.

Lemma patch_unchecked_ignores_sentinel_witness :
  patch_ret
    (patch (engine := Sample.literal_engine) (digest := Sample.digest)
           (Sample.flags false) (inr Sample.abc)
           (inr (FInt 6144
                 :: map FOperation [Sample.insert_abd; Sample.nil_sentinel]))
           None) = None.
Proof.
  destruct (@patch_unchecked_ignores_sentinel Sample.literal_engine
              Sample.digest (Sample.flags false) Sample.abc 6144
              (map FOperation [Sample.insert_abd; Sample.nil_sentinel])
              eq_refl) as [_ [_ [_ [_ [_ [H _]]]]]].
  apply (H [Sample.insert_abd; Sample.nil_sentinel]); reflexivity.
Defined.

(** ** Truncated headers *)

(** C4.  On a stream that is exhausted before a block-size header is
    decoded, [delta] (reading the signature) and [patch] (reading the
    delta) return [io.ErrUnexpectedEOF], which is not [io.EOF]; any other
    error of the header's decoding is returned as it is. *)
Theorem truncated_header_unexpected_EOF :
  forall (engine : Engine) (digest : Digest) fl stream nf basis file,
    fst (Decode as_int stream) = inl EOF ->
    ret (delta fl (inr stream) (inr nf) (inr file)) = Some ErrUnexpectedEOF /\
    patch_ret (patch fl (inr basis) (inr stream) None) = Some ErrUnexpectedEOF /\
    ErrUnexpectedEOF <> EOF /\
    (forall msg, ErrUnexpectedEOF <> Foreign msg) /\
    (forall stream' err,
        fst (Decode as_int stream') = inl err ->
        is_EOF err = false ->
        ret (delta fl (inr stream') (inr nf) (inr file)) = Some err /\
        patch_ret (patch fl (inr basis) (inr stream') None) = Some err).
Proof.
  intros engine digest fl stream nf basis file H.
  split; [|split; [|split; [|split]]].
  - now apply delta_truncated_header.
  - now apply patch_truncated_header.
  - discriminate.
  - discriminate.
  - intros stream' err H' Herr. split.
    + now apply delta_header_error.
    + now apply patch_header_error.
Qed.

Lemma truncated_header_unexpected_EOF_witness :
  ret (delta (engine := Sample.literal_engine) (digest := Sample.digest)
             (Sample.flags true) (inr []) (inr Sample.abd) (inr None))
  = Some ErrUnexpectedEOF /\
  patch_ret (patch (engine := Sample.literal_engine) (digest := Sample.digest)
                   (Sample.flags true) (inr Sample.abc) (inr []) None)
  = Some ErrUnexpectedEOF.
Proof.
  destruct (@truncated_header_unexpected_EOF Sample.literal_engine Sample.digest
              (Sample.flags true) [] Sample.abd Sample.abc None eq_refl)
    as [Hd [Hp _]].
  split; assumption.
Defined.

(** ** A generator that fails *)

Lemma Forall_firstn_of (A : Type) (P : A -> Prop) : forall k (l : list A),
    Forall P l -> Forall P (firstn k l).
Proof.
  intros k l H. rewrite <- (firstn_skipn k l) in H.
  apply Forall_app in H. tauto.
Qed.

(** [patch] with the check on, given a header and instructions only. *)
Lemma patch_without_sentinel :
  forall (engine : Engine) (digest : Digest) fl basis blockSize ops,
    checkFile fl = true ->
    Forall (fun op => Type' op <> HASH) ops ->
    patch_ret (patch fl (inr basis) (inr (FInt blockSize :: map FOperation ops))
                     None) =
    match failure (ApplyDelta (with_block_size fl blockSize) basis ops true) with
    | Some err => Some err
    | None => Some NoTargetSumError
    end.
Proof.
  intros engine digest fl basis blockSize ops Hc Hops.
  rewrite patch_after_header. simpl. unfold verdict_after.
  rewrite decode_ops_sent, decode_ops_sourceSum, decoded_operations.
  rewrite decode_ops_well_formed, (instructions_all Hops), Hc.
  unfold sum_after. rewrite (last_sentinel_none Hops). simpl.
  now destruct (failure _).
Qed.

(** C8.  With the check on, when the engine's delta generator returns an
    error, [delta] returns that error and the delta file holds the header
    and operations of the generator only, no sentinel; [patch] with the
    check on does not succeed on that file: it returns the error of the
    apply step or, that step succeeding, [NoTargetSumError]. *)
Theorem delta_engine_error_no_sentinel :
  forall (engine : Engine) (digest : Digest)
         fl stream nf file blockSize rest hl e err,
    checkFile fl = true ->
    Decode as_int stream = (inr blockSize, rest) ->
    load_hashes rest [] = inr hl ->
    Encode (NewEncoder file) (FInt blockSize) = (None, e) ->
    fst (delta_generation fl blockSize nf hl e) = Some err ->
    Forall (fun op => Type' op <> HASH)
           (emitted (CreateDelta (with_block_size fl blockSize) nf hl true)) ->
    let d := delta fl (inr stream) (inr nf) (inr file) in
    ret d = Some err /\
    exists ops,
      out d = FInt blockSize :: map FOperation ops /\
      Forall (fun op => Type' op <> HASH) ops /\
      forall fl' basis,
        checkFile fl' = true ->
        let p := patch fl' (inr basis) (inr (out d)) None in
        patch_ret p <> None /\
        (failure (ApplyDelta (with_block_size fl' blockSize) basis ops true)
         = None ->
         patch_ret p = Some NoTargetSumError).
Proof.
  intros engine digest fl stream nf file blockSize rest hl e err
         Hc HD HL HE HG Hops d.
  destruct (@delta_generator_error engine digest fl stream nf file blockSize
              rest hl e err HD HL HE HG) as [Hret [k Hout]].
  rewrite Hc in Hout. fold d in Hret, Hout.
  split; [exact Hret|].
  exists (firstn k (emitted (CreateDelta (with_block_size fl blockSize) nf hl true))).
  split; [exact Hout|].
  split; [now apply Forall_firstn_of|].
  intros fl' basis Hc' p. subst p. rewrite Hout.
  rewrite (@patch_without_sentinel engine digest fl' basis blockSize _ Hc'
             (@Forall_firstn_of _ _ k _ Hops)).
  destruct (failure _); split; congruence.
Qed.

Lemma delta_engine_error_no_sentinel_witness :
  ret (delta (engine := Sample.failing_engine) (digest := Sample.digest)
             (Sample.flags true) (inr [FInt 6144]) (inr Sample.abd) (inr None))
  = Some (Foreign "read: input/output error").
Proof.
  apply (@delta_engine_error_no_sentinel Sample.failing_engine Sample.digest
           (Sample.flags true) [FInt 6144] Sample.abd None 6144 [] []
           {| written := [FInt 6144]; room := None |}
           (Foreign "read: input/output error")
           eq_refl eq_refl eq_refl eq_refl eq_refl).
  repeat constructor. discriminate.
Defined.

(** ** Round trip *)

Lemma literal_engine_faithful : Faithful Sample.literal_engine.
Proof.
  constructor; simpl.
  - intros. repeat constructor. discriminate.
  - intros. apply app_nil_r.
  - reflexivity.
  - reflexivity.
Qed.

Lemma bytes_Equal_refl : forall s, bytes_Equal s s = true.
Proof. intros s. unfold bytes_Equal. now apply bytes_eqb_eq. Qed.

(** C3.  For a faithful engine, a basis file, a new file and a positive
    block size: when [signature] and [delta] return no error and the
    apply step does not fail, [patch] of the basis with the delta made
    from the signature of the basis and the new file writes the new file,
    byte for byte, whatever the flags of the three runs; it returns no
    error unless it checks a delta made without the check. *)
Theorem patch_delta_signature_roundtrip :
  forall (engine : Engine) (digest : Digest) (faithful : Faithful engine)
         fl_s fl_d fl_p basis nf file_s file_d,
    let rs := getRsync fl_s in
    0 < BlockSize rs ->
    let s := signature fl_s (inr basis) (inr file_s) in
    let d := delta fl_d (inr (out s)) (inr nf) (inr file_d) in
    let p := patch fl_p (inr basis) (inr (out d)) None in
    ret s = None ->
    ret d = None ->
    failure
      (ApplyDelta rs basis
         (emitted (CreateDelta rs nf (emitted (CreateSignature rs basis))
                               (checkFile fl_d)))
         (checkFile fl_p)) = None ->
    newfile p = nf /\
    (implb (checkFile fl_p) (checkFile fl_d) = true -> patch_ret p = None).
Proof.
  intros engine digest faithful fl_s fl_d fl_p basis nf file_s file_d
         rs Hpos s d p Hs Hd Hap.
  destruct (@signature_success engine fl_s basis file_s Hs) as [Hsout Hsg].
  fold s rs in Hsout, Hsg.
  assert (HD : Decode as_int (out s)
               = (inr (BlockSize rs),
                  map FBlockHash (emitted (CreateSignature rs basis)))).
  { rewrite Hsout. reflexivity. }
  pose proof (load_hashes_records (emitted (CreateSignature rs basis)) [])
    as HL. simpl in HL.
  destruct (@delta_success engine digest fl_d (out s) nf file_d _ _ _ HD HL Hd)
    as [Hdout Hdl].
  change (out d = FInt (BlockSize rs)
                  :: map FOperation
                       (emitted (CreateDelta (with_block_size fl_d (BlockSize rs)) nf
                                   (emitted (CreateSignature rs basis))
                                   (checkFile fl_d))
                        ++ (if checkFile fl_d
                            then [sentinel_of
                                    (hashed (CreateDelta (with_block_size fl_d (BlockSize rs)) nf
                                               (emitted (CreateSignature rs basis))
                                               (checkFile fl_d)))]
                            else []))) in Hdout.
  change (with_block_size fl_d (BlockSize rs)) with rs in Hdout, Hdl.
  set (dl := CreateDelta rs nf (emitted (CreateSignature rs basis))
                         (checkFile fl_d)) in *.
  pose proof (delta_no_sentinel rs nf (emitted (CreateSignature rs basis))
                                (checkFile fl_d)) as Hops.
  fold dl in Hops.
  assert (Hinstr :
            instructions
              (emitted dl
               ++ (if checkFile fl_d then [sentinel_of (hashed dl)] else []))
            = emitted dl).
  { rewrite instructions_app, (instructions_all Hops).
    destruct (checkFile fl_d); simpl; apply app_nil_r. }
  assert (Hp : p = {| patch_ret :=
                        verdict_after fl_p
                          (decode_ops (tl (out d)) None)
                          (ApplyDelta rs basis (emitted dl) (checkFile fl_p));
                      newfile :=
                        emitted (ApplyDelta rs basis (emitted dl) (checkFile fl_p));
                      task := Some (decode_ops (tl (out d)) None) |}).
  { subst p. rewrite Hdout. rewrite patch_after_header. simpl tl.
    rewrite decode_ops_sent, decoded_operations, Hinstr. reflexivity. }
  pose proof (apply_reconstructs rs basis nf (checkFile fl_d) (checkFile fl_p)
                                 Hpos Hsg Hdl Hap) as Hnf.
  fold dl in Hnf.
  rewrite Hp. simpl. split; [exact Hnf|].
  intros Hflags. unfold verdict_after. rewrite Hap.
  rewrite Hdout. simpl tl. rewrite decode_ops_well_formed.
  destruct (checkFile fl_p) eqn:Cp; [|reflexivity]. simpl in Hflags.
  simpl.
  rewrite decode_ops_sourceSum, decoded_operations.
  subst dl. rewrite Hflags in *.
  unfold sum_after. rewrite last_sentinel_snoc by reflexivity.
  simpl.
  rewrite (@apply_hashes_target engine faithful rs basis _ Hap), Hnf.
  rewrite (@delta_hashes_newfile engine faithful rs nf _ Hdl).
  now rewrite bytes_Equal_refl.
Qed.

Lemma patch_delta_signature_roundtrip_witness :
  newfile
    (patch (engine := Sample.literal_engine) (digest := Sample.digest)
       (Sample.flags true) (inr Sample.abc)
       (inr (out (delta (engine := Sample.literal_engine)
                        (digest := Sample.digest) (Sample.flags true)
                        (inr (out (signature (engine := Sample.literal_engine)
                                             (Sample.flags true)
                                             (inr Sample.abc) (inr None))))
                        (inr Sample.abd) (inr None))))
       None) = Sample.abd.
Proof.
  apply (@patch_delta_signature_roundtrip Sample.literal_engine Sample.digest
           literal_engine_faithful (Sample.flags true) (Sample.flags true)
           (Sample.flags true) Sample.abc Sample.abd None None
           eq_refl eq_refl eq_refl eq_refl).
Defined.

(** ** Signatures *)

(** C9.  Two runs of [signature] with the same flags on the same basis
    bytes that return no error leave the same frames in their output
    files, whatever files they were given: the header, then the block
    hashes of the engine in its order. *)
Theorem signature_deterministic :
  forall (engine : Engine) fl basis file file',
    ret (signature fl (inr basis) (inr file)) = None ->
    ret (signature fl (inr basis) (inr file')) = None ->
    out (signature fl (inr basis) (inr file))
    = out (signature fl (inr basis) (inr file')) /\
    out (signature fl (inr basis) (inr file))
    = FInt (BlockSize (getRsync fl))
      :: map FBlockHash (emitted (CreateSignature (getRsync fl) basis)).
Proof.
  intros engine fl basis file file' H H'.
  destruct (@signature_success engine fl basis file H) as [Hout _].
  destruct (@signature_success engine fl basis file' H') as [Hout' _].
  split; congruence.
Qed.

Lemma signature_deterministic_witness :
  out (signature (engine := Sample.literal_engine) (Sample.flags true)
                 (inr Sample.abc) (inr None))
  = out (signature (engine := Sample.literal_engine) (Sample.flags true)
                   (inr Sample.abc) (inr (Some 1%nat))).
Proof.
  apply (@signature_deterministic Sample.literal_engine (Sample.flags true)
           Sample.abc None (Some 1%nat) eq_refl eq_refl).
Defined.

(** ** The codec on operations *)

Lemma skipn_map_app (A B : Type) (f : A -> B) : forall (a b : list A),
    skipn (length a) (map f (a ++ b)) = map f b.
Proof.
  induction a as [|x a IH]; intros b; simpl; [reflexivity | apply IH].
Qed.

(** C7.  The operations pushed, without a write error, through the
    callback of [delta] onto a new file are read back by [Decode] one by
    one, each equal to the one written (tag, offset, length, payload), in
    the order written, and then the stream ends. *)
Theorem operation_codec_roundtrip :
  forall (ops : list Operation) (file : Device) (e : Encoder),
    push_each (fun op enc => Encode enc (FOperation op)) ops (NewEncoder file)
    = (None, e) ->
    (forall before op after,
        ops = before ++ op :: after ->
        Decode as_Operation (skipn (length before) (written e))
        = (inr op, map FOperation after)) /\
    Decode as_Operation (skipn (length ops) (written e)) = (inl EOF, []).
Proof.
  intros ops file e H.
  apply (push_each_all FOperation) in H. simpl in H. rewrite H.
  split.
  - intros before op after ->. rewrite skipn_map_app. reflexivity.
  - rewrite <- (app_nil_r ops) at 2. rewrite skipn_map_app. reflexivity.
Qed.

Lemma operation_codec_roundtrip_witness :
  Decode as_Operation
    (skipn 1 [FOperation Sample.insert_abd; FOperation Sample.nil_sentinel])
  = (inr Sample.nil_sentinel, []).
Proof.
  apply (proj1 (@operation_codec_roundtrip
                  [Sample.insert_abd; Sample.nil_sentinel] None
                  {| written := [FOperation Sample.insert_abd;
                                 FOperation Sample.nil_sentinel];
                     room := None |}
                  eq_refl)
               [Sample.insert_abd] Sample.nil_sentinel [] eq_refl).
Defined.

(** ** The comparator *)

Section Comparator.

Lemma min_of_lengths : forall n m : nat,
    Z.to_nat (Main.min (Z.of_nat n) (Z.of_nat m)) = Nat.min n m.
Proof.
  intros n m. unfold Main.min.
  destruct (Z.ltb_spec (Z.of_nat n) (Z.of_nat m)); rewrite Nat2Z.id; lia.
Qed.

Lemma reader_delivers : forall calls,
    concat (pushed (reader calls)) = delivered calls.
Proof.
  induction calls as [|call rest IH]; [reflexivity|]. simpl.
  destruct (read_err call) as [err|].
  - destruct (is_EOF err); simpl; destruct (got call); simpl;
      now rewrite ?app_nil_r.
  - simpl. destruct (got call); simpl; now rewrite IH.
Qed.

Lemma reader_closes : forall calls, closes (reader calls) = reaches_EOF calls.
Proof.
  induction calls as [|call rest IH]; [reflexivity|]. simpl.
  destruct (read_err call) as [err|]; [now destruct (is_EOF err) | exact IH].
Qed.

Lemma reader_reports : forall calls,
    reaches_EOF calls = true -> reports (reader calls) = None.
Proof.
  induction calls as [|call rest IH]; [reflexivity|]. simpl.
  destruct (read_err call) as [err|]; [|exact IH].
  intros H. now rewrite H.
Qed.

Lemma errorSource_empty : forall sched r1 r2 iteration,
    reports r1 = None -> reports r2 = None ->
    errorSource sched r1 r2 iteration = [].
Proof.
  intros sched r1 r2 iteration H1 H2. unfold errorSource.
  rewrite H1, H2. now destruct (seen sched iteration), (first_file_first sched).
Qed.

(** What the merge loop holds after a receive on a source that closes. *)
Lemma receive_closing : forall b q,
    match receive b q true with
    | ChannelClosed => b = [] /\ q = []
    | Waits => False
    | Got b' q' =>
        b' ++ concat q' = b ++ concat q /\
        (length q' <= length q)%nat /\
        (b' = [] -> (length q' < length q)%nat)
    end.
Proof.
  intros [|x b] [|c q]; simpl; repeat split; try lia; try discriminate.
Qed.

Lemma first_difference_app : forall p p' x y,
    length p = length p' ->
    first_difference (p ++ x) (p' ++ y) =
    match first_difference p p' with
    | Some i => Some i
    | None => option_map (Nat.add (length p)) (first_difference x y)
    end.
Proof.
  induction p as [|a p IH]; destruct p' as [|a' p']; simpl; intros x y H;
    try discriminate.
  - now destruct (first_difference x y).
  - destruct (Byte.eqb a a'); [|reflexivity].
    rewrite IH by lia.
    destruct (first_difference p p'); [reflexivity|].
    now destruct (first_difference x y).
Qed.

Lemma compare_bytes_spec : forall size b1 b2 location,
    (size <= length b1)%nat -> (size <= length b2)%nat ->
    0 <= location -> location + Z.of_nat size < 2 ^ 63 ->
    compare_bytes size b1 b2 location =
    match first_difference (firstn size b1) (firstn size b2) with
    | Some i => inl (BytesDiffer (location + Z.of_nat i))
    | None => inr (location + Z.of_nat size)
    end.
Proof.
  induction size as [|size IH]; intros b1 b2 location H1 H2 H0 Hmax.
  - simpl. now rewrite Z.add_0_r.
  - destruct b1 as [|x b1]; [simpl in H1; lia|].
    destruct b2 as [|y b2]; [simpl in H2; lia|].
    simpl length in H1, H2.
    cbn [compare_bytes firstn first_difference].
    destruct (Byte.eqb x y); cbn [negb].
    + unfold int_add. rewrite int_wrap_small by lia.
      rewrite IH by lia.
      destruct (first_difference (firstn size b1) (firstn size b2));
        cbn [option_map]; [do 2 f_equal | f_equal]; lia.
    + now rewrite Z.add_0_r.
Qed.

(** The merge loop on two sources that close, hold as many bytes, and
    with no read error: it returns, with the first difference if any. *)
Lemma merge_compares : forall steps errors iteration location b1 q1 b2 q2,
    (forall k, errors k = []) ->
    0 <= location ->
    location + Z.of_nat (length (b1 ++ concat q1)) < 2 ^ 63 ->
    length (b1 ++ concat q1) = length (b2 ++ concat q2) ->
    (length q1 + length q2 + length (b1 ++ concat q1) < steps)%nat ->
    merge steps errors iteration location b1 q1 true b2 q2 true =
    match first_difference (b1 ++ concat q1) (b2 ++ concat q2) with
    | Some i => Returns (Some (BytesDiffer (location + Z.of_nat i)))
    | None => Returns None
    end.
Proof.
  induction steps as [|steps IH];
    intros errors iteration location b1 q1 b2 q2 Herr H0 Hmax Hlen Hsteps;
    [lia|].
  simpl. rewrite Herr.
  pose proof (receive_closing b1 q1) as R1.
  destruct (receive b1 q1 true) as [b1' q1'| |]; [| |contradiction].
  2:{ destruct R1 as [-> ->]. reflexivity. }
  destruct R1 as [E1 [L1 P1]].
  pose proof (receive_closing b2 q2) as R2.
  destruct (receive b2 q2 true) as [b2' q2'| |]; [| |contradiction].
  2:{ destruct R2 as [-> ->]. simpl in Hlen.
      destruct (b1 ++ concat q1); [reflexivity | discriminate]. }
  destruct R2 as [E2 [L2 P2]].
  rewrite <- E1, <- E2 in *. clear E1 E2.
  rewrite min_of_lengths.
  set (size := Nat.min (length b1') (length b2')).
  rewrite compare_bytes_spec
    by (try assumption; rewrite ?length_app in Hmax; unfold size; lia).
  replace (first_difference (b1' ++ concat q1') (b2' ++ concat q2'))
    with (first_difference
            (firstn size b1' ++ (skipn size b1' ++ concat q1'))
            (firstn size b2' ++ (skipn size b2' ++ concat q2')))
    by (now rewrite !app_assoc, !firstn_skipn).
  assert (Hp : length (firstn size b1') = length (firstn size b2')).
  { rewrite !length_firstn. unfold size. lia. }
  rewrite (@first_difference_app _ _ _ _ Hp).
  destruct (first_difference (firstn size b1') (firstn size b2'));
    [reflexivity|].
  rewrite IH.
  - rewrite length_firstn.
    replace (Nat.min size (length b1')) with size by (unfold size; lia).
    destruct (first_difference _ _); simpl; [|reflexivity].
    do 3 f_equal. lia.
  - exact Herr.
  - lia.
  - rewrite !length_app, !length_skipn in *. unfold size. lia.
  - rewrite !length_app, !length_skipn in *. unfold size. lia.
  - rewrite !length_app, !length_skipn in *.
    destruct b1' as [|x b1'].
    + specialize (P1 eq_refl). simpl. lia.
    + destruct b2' as [|y b2'].
      * specialize (P2 eq_refl). unfold size. simpl length in *. lia.
      * unfold size. simpl length in *. lia.
Qed.

(** What a receive leaves, on any source. *)
Lemma receive_spec : forall b q closes,
    match receive b q closes with
    | ChannelClosed => b = [] /\ q = [] /\ closes = true
    | Waits => b = [] /\ q = [] /\ closes = false
    | Got b' q' =>
        b' ++ concat q' = b ++ concat q /\
        (length q' <= length q)%nat /\
        (b' = [] -> (length q' < length q)%nat)
    end.
Proof.
  intros [|x b] [|c q] [|]; simpl; repeat split; try lia; try discriminate.
Qed.

(** The merge loop ends within the steps [test] gives it, whatever the
    readers did and whatever the schedule. *)
Lemma merge_finishes :
  forall steps errors iteration location b1 q1 closes1 b2 q2 closes2,
    (length q1 + length q2 + length (b1 ++ concat q1) < steps)%nat ->
    merge steps errors iteration location b1 q1 closes1 b2 q2 closes2
    <> Unfinished.
Proof.
  induction steps as [|steps IH];
    intros errors iteration location b1 q1 closes1 b2 q2 closes2 Hsteps;
    [lia|].
  simpl. destruct (errors iteration); [|discriminate].
  pose proof (receive_spec b1 q1 closes1) as R1.
  destruct (receive b1 q1 closes1) as [b1' q1'| |]; try discriminate.
  destruct R1 as [E1 [L1 P1]].
  pose proof (receive_spec b2 q2 closes2) as R2.
  destruct (receive b2 q2 closes2) as [b2' q2'| |]; try discriminate.
  destruct R2 as [E2 [L2 P2]].
  rewrite min_of_lengths.
  destruct (compare_bytes _ b1' b2' location); [discriminate|].
  apply IH. rewrite <- E1 in Hsteps.
  rewrite !length_app, !length_skipn in *.
  destruct b1' as [|x b1'].
  - specialize (P1 eq_refl). simpl length in *. lia.
  - destruct b2' as [|y b2'].
    + specialize (P2 eq_refl). simpl length in *. lia.
    + simpl length in *. lia.
Qed.

Lemma test_finishes : forall basis1Open basis2Open sched,
    verdict (test basis1Open basis2Open sched) <> Unfinished.
Proof.
  intros [err1|f1] [err2|f2] sched; unfold test; try discriminate.
  destruct (Stat f1) as [e1|size1]; [discriminate|].
  destruct (Stat f2) as [e2|size2]; [discriminate|].
  destruct (negb (size1 =? size2)); [discriminate|].
  cbn [verdict]. apply merge_finishes. unfold enough. simpl. lia.
Qed.

Lemma first_difference_none : forall a b,
    length a = length b -> first_difference a b = None -> a = b.
Proof.
  induction a as [|x a IH]; destruct b as [|y b]; simpl; intros L H;
    try discriminate; [reflexivity|].
  destruct (Byte.eqb x y) eqn:E; [|discriminate].
  apply Byte.byte_dec_bl in E. subst y.
  destruct (first_difference a b) eqn:F; [discriminate|].
  f_equal. apply IH; [lia | exact F].
Qed.

Lemma first_difference_same : forall a, first_difference a a = None.
Proof.
  induction a as [|x a IH]; [reflexivity|].
  simpl. now rewrite byte_eqb_refl, IH.
Qed.

(** A position whose bytes differ, all earlier ones agreeing, is the
    first difference. *)
Lemma first_difference_least : forall a b i,
    nth_error a i <> nth_error b i ->
    (forall j, (j < i)%nat -> nth_error a j = nth_error b j) ->
    length a = length b ->
    first_difference a b = Some i.
Proof.
  induction a as [|x a IH]; destruct b as [|y b]; intros i Hd Hb L;
    try discriminate.
  - destruct i; simpl in Hd; congruence.
  - destruct i as [|i]; simpl in *.
    + rewrite byte_eqb_neq by congruence. reflexivity.
    + assert (x = y) as ->.
      { specialize (Hb O). simpl in Hb. assert (Some x = Some y) by (apply Hb; lia).
        congruence. }
      rewrite byte_eqb_refl. rewrite (IH b i); [reflexivity|exact Hd| |lia].
      intros j Hj. apply (Hb (S j)). lia.
Qed.

Lemma test_equal_sizes : forall f1 f2 sched c1 c2,
    holds f1 c1 -> holds f2 c2 -> length c1 = length c2 ->
    test (inr f1) (inr f2) sched =
    {| verdict :=
         match first_difference c1 c2 with
         | Some i => Returns (Some (BytesDiffer (Z.of_nat i)))
         | None => Returns None
         end;
       readers_started := true |}.
Proof.
  intros f1 f2 sched c1 c2 [S1 [D1 [E1 M1]]] [S2 [D2 [E2 M2]]] L.
  unfold test. cbv beta iota zeta. rewrite S1. cbv beta iota.
  rewrite S2. cbv beta iota. rewrite L, Z.eqb_refl. cbn [negb]. f_equal.
  rewrite !reader_closes, E1, E2.
  rewrite <- D1, <- D2 in *. rewrite <- !reader_delivers in *.
  apply merge_compares.
  - intros k. apply errorSource_empty; now apply reader_reports.
  - lia.
  - simpl. lia.
  - exact L.
  - unfold enough. simpl. lia.
Qed.

End Comparator.

Lemma first_difference_some : forall a b i,
    first_difference a b = Some i -> first_differ_at a b i.
Proof.
  induction a as [|x a IH]; destruct b as [|y b]; simpl; intros i H;
    try discriminate.
  destruct (Byte.eqb x y) eqn:E.
  - destruct (first_difference a b) as [k|] eqn:F; [|discriminate].
    injection H as <-. destruct (IH b k F) as [Hd Hb].
    apply Byte.byte_dec_bl in E. subst y. split; [exact Hd|].
    intros [|j] Hj; [reflexivity|]. simpl. apply Hb. lia.
  - injection H as <-. apply Byte.eqb_false in E. split.
    + simpl. congruence.
    + intros j Hj. lia.
Qed.

(** C2.  For two files of equal size that are read to their end, [test]
    returns no error exactly when they hold the same byte at every
    position, and otherwise returns [BytesDiffer] with the first position
    at which they differ; for two files of unequal size it returns
    [FileSizeDifferent] before any reader is started, whatever the files
    hold. *)
Theorem test_compares_files :
  forall f1 f2 sched,
    (forall c1 c2,
        holds f1 c1 -> holds f2 c2 -> length c1 = length c2 ->
        let v := verdict (test (inr f1) (inr f2) sched) in
        (v = Returns None <-> forall i, nth_error c1 i = nth_error c2 i) /\
        (forall i,
            first_differ_at c1 c2 i ->
            v = Returns (Some (BytesDiffer (Z.of_nat i)))) /\
        (v <> Returns None -> exists i, first_differ_at c1 c2 i)) /\
    (forall size1 size2,
        Stat f1 = inr size1 -> Stat f2 = inr size2 -> size1 <> size2 ->
        test (inr f1) (inr f2) sched =
        {| verdict := Returns (Some FileSizeDifferent);
           readers_started := false |}).
Proof.
  intros f1 f2 sched. split.
  - intros c1 c2 H1 H2 L v. subst v.
    rewrite (@test_equal_sizes f1 f2 sched c1 c2 H1 H2 L). simpl.
    destruct (first_difference c1 c2) as [k|] eqn:F.
    + split; [split|split].
      * discriminate.
      * intros Hall. apply nth_error_ext in Hall. subst c2.
        rewrite first_difference_same in F. discriminate.
      * intros i [Hd Hb].
        rewrite (@first_difference_least c1 c2 i Hd Hb L) in F. congruence.
      * intros _. exists k. now apply first_difference_some.
    + apply (@first_difference_none c1 c2 L) in F. subst c2.
      split; [split|split].
      * reflexivity.
      * reflexivity.
      * intros i [Hd _]. contradiction.
      * intros H. contradiction.
  - intros size1 size2 S1 S2 Hne. unfold test. cbv beta iota zeta.
    rewrite S1. cbv beta iota. rewrite S2. cbv beta iota.
    apply Z.eqb_neq in Hne. rewrite Hne. reflexivity.
Qed.

Lemma test_compares_files_witness :
  verdict (test (inr Sample.file_abc) (inr Sample.file_abd) Sample.any_schedule)
  = Returns (Some (BytesDiffer 2)).
Proof.
  apply (proj1 (proj2 (proj1 (test_compares_files Sample.file_abc Sample.file_abd
                                 Sample.any_schedule)
                             Sample.abc Sample.abd
                             (conj eq_refl (conj eq_refl (conj eq_refl eq_refl)))
                             (conj eq_refl (conj eq_refl (conj eq_refl eq_refl)))
                             eq_refl))
               2%nat).
  split.
  - simpl. discriminate.
  - intros [|[|j]] Hj; [reflexivity | reflexivity | lia].
Defined.

(** ** Further properties of [patch] *)

(** X9.  [patch] returns no error exactly when the apply step did not
    fail, no frame failed to decode and, with the check on, the last
    sentinel decoded carries the digest of what the engine hashed. *)
Theorem patch_success_iff :
  forall (engine : Engine) (digest : Digest) fl basis blockSize stream,
    let t := decode_ops stream None in
    let run := ApplyDelta (with_block_size fl blockSize) basis
                          (instructions (decoded stream)) (checkFile fl) in
    patch_ret (patch fl (inr basis) (inr (FInt blockSize :: stream)) None)
    = None <->
    failure run = None /\
    decodeError t = None /\
    (checkFile fl = false \/
     exists s,
       last_sentinel (decoded stream) = Some s /\
       Data s = Some (md5_Sum (hashed run))).
Proof.
  intros engine digest fl basis blockSize stream t run.
  rewrite patch_after_header. simpl. unfold verdict_after.
  rewrite decode_ops_sent, decode_ops_sourceSum. fold t run.
  unfold sum_after.
  destruct (failure run) as [e|].
  { split; [discriminate | intros [H _]; discriminate]. }
  destruct (decodeError t) as [e|].
  { split; [discriminate | intros [_ [H _]]; discriminate]. }
  destruct (checkFile fl); simpl.
  - destruct (last_sentinel (decoded stream)) as [s|].
    + destruct (Data s) as [payload|] eqn:D.
      * unfold bytes_Equal, Sum_nil. simpl.
        destruct (bytes_eqb payload (md5_Sum (hashed run))) eqn:E; simpl.
        -- apply bytes_eqb_eq in E. subst payload. split; [|reflexivity].
           intros _. repeat split. right. exists s. now split.
        -- split; [discriminate|].
           intros [_ [_ [H|[s' [Hs Hd]]]]]; [discriminate|].
           injection Hs as <-. rewrite D in Hd. injection Hd as Hd.
           apply bytes_eqb_eq in Hd. congruence.
      * split; [discriminate|].
        intros [_ [_ [H|[s' [Hs Hd]]]]]; [discriminate|].
        injection Hs as <-. congruence.
    + split; [discriminate|].
      intros [_ [_ [H|[s' [Hs _]]]]]; discriminate.
  - split; [|reflexivity]. intros _. repeat split. now left.
Qed.

Lemma decode_ops_until_failure : forall ops f rest rest' err sum,
    as_Operation f = inl err ->
    decode_ops (map FOperation ops ++ f :: rest) sum
    = decode_ops (map FOperation ops ++ f :: rest') sum.
Proof.
  induction ops as [|op ops IH]; intros f rest rest' err sum Hf.
  - simpl. now rewrite Hf.
  - simpl. destruct (OpType_eqb (Type' op) HASH).
    + eapply IH; eassumption.
    + now rewrite (@IH f rest rest' err sum Hf).
Qed.

(** X15.  [patch] reads nothing past the first frame that fails to
    decode: what follows that frame changes neither the error returned,
    nor the new file, nor the checksum captured. *)
Theorem patch_stops_at_decode_error :
  forall (engine : Engine) (digest : Digest)
         fl basis blockSize ops f rest rest' err,
    as_Operation f = inl err ->
    patch fl (inr basis)
          (inr (FInt blockSize :: map FOperation ops ++ f :: rest)) None
    = patch fl (inr basis)
            (inr (FInt blockSize :: map FOperation ops ++ f :: rest')) None.
Proof.
  intros engine digest fl basis blockSize ops f rest rest' err Hf.
  rewrite !patch_after_header.
  now rewrite (@decode_ops_until_failure ops f rest rest' err None Hf).
Qed.

Lemma patch_stops_at_decode_error_witness :
  patch (engine := Sample.literal_engine) (digest := Sample.digest)
        (Sample.flags true) (inr Sample.abc)
        (inr (FInt 6144
              :: map FOperation [Sample.insert_abd]
                 ++ Sample.corrupt :: Sample.checked_records)) None
  = patch (engine := Sample.literal_engine) (digest := Sample.digest)
          (Sample.flags true) (inr Sample.abc)
          (inr (FInt 6144
                :: map FOperation [Sample.insert_abd] ++ Sample.corrupt :: []))
          None.
Proof.
  apply (@patch_stops_at_decode_error Sample.literal_engine Sample.digest
           (Sample.flags true) Sample.abc 6144 [Sample.insert_abd]
           Sample.corrupt Sample.checked_records []
           (Foreign "gob: bad data") eq_refl).
Defined.

(** ** The flags each verb reads *)

(** X4.  [delta] and [patch] take the block size from the header of the
    stream they read: they return the same result for any two values of
    the [--block] flag.  [signature] does not read the [--check] flag. *)
Theorem verbs_read_their_flags_only :
  forall (engine : Engine) (digest : Digest) fl fl',
    (checkFile fl = checkFile fl' ->
     (forall sigOpen nfOpen deltaCreate,
         delta fl sigOpen nfOpen deltaCreate
         = delta fl' sigOpen nfOpen deltaCreate) /\
     (forall basisOpen deltaOpen fsCreate,
         patch fl basisOpen deltaOpen fsCreate
         = patch fl' basisOpen deltaOpen fsCreate)) /\
    (blockSizeKiB fl = blockSizeKiB fl' ->
     forall basisOpen sigCreate,
       signature fl basisOpen sigCreate = signature fl' basisOpen sigCreate).
Proof.
  intros engine digest [kib check] [kib' check']. simpl. split.
  - intros <-. split; reflexivity.
  - intros <-. reflexivity.
Qed.

Lemma verbs_read_their_flags_only_witness :
  patch (engine := Sample.literal_engine) (digest := Sample.digest)
        {| blockSizeKiB := 6; checkFile := true |} (inr Sample.abc)
        (inr (FInt 6144 :: Sample.checked_records)) None
  = patch (engine := Sample.literal_engine) (digest := Sample.digest)
          {| blockSizeKiB := 64; checkFile := true |} (inr Sample.abc)
          (inr (FInt 6144 :: Sample.checked_records)) None.
Proof.
  apply (proj1 (@verbs_read_their_flags_only Sample.literal_engine
                  Sample.digest {| blockSizeKiB := 6; checkFile := true |}
                  {| blockSizeKiB := 64; checkFile := true |})
               eq_refl).
Defined.

(** ** Further properties of [delta] *)

Lemma load_hashes_failure : forall blocks f rest err hl,
    as_BlockHash f = inl err ->
    is_EOF err = false ->
    load_hashes (map FBlockHash blocks ++ f :: rest) hl = inl err.
Proof.
  induction blocks as [|b blocks IH]; intros f rest err hl Hf Herr; simpl.
  - now rewrite Hf, Herr.
  - now apply IH.
Qed.

(** X5.  [delta] reads the whole signature before it writes: when a
    record of the signature fails to decode, at whatever position,
    [delta] returns that error and the delta file, though created, holds
    nothing, not even the header. *)
Theorem delta_reads_signature_first :
  forall (engine : Engine) (digest : Digest)
         fl blockSize blocks f rest err nf file,
    as_BlockHash f = inl err ->
    is_EOF err = false ->
    delta fl (inr (FInt blockSize :: map FBlockHash blocks ++ f :: rest))
          (inr nf) (inr file)
    = {| ret := Some err; out := [] |}.
Proof.
  intros engine digest fl blockSize blocks f rest err nf file Hf Herr.
  unfold delta. simpl.
  now rewrite (@load_hashes_failure blocks f rest err [] Hf Herr).
Qed.

Lemma delta_reads_signature_first_witness :
  delta (engine := Sample.literal_engine) (digest := Sample.digest)
        (Sample.flags true)
        (inr (FInt 6144
              :: map FBlockHash [Sample.block_c] ++ Sample.corrupt :: []))
        (inr Sample.abd) (inr None)
  = {| ret := Some (Foreign "gob: bad data"); out := [] |}.
Proof.
  apply (@delta_reads_signature_first Sample.literal_engine Sample.digest
           (Sample.flags true) 6144 [Sample.block_c] Sample.corrupt []
           (Foreign "gob: bad data") Sample.abd None eq_refl eq_refl).
Defined.

(** X6.  The file of a [signature] that returned no error is read back
    by [delta] without a decode error: on a device with room [delta]
    returns what the engine's generator returns, and its file holds the
    header of the signature (whatever [--block] [delta] was given), the
    operations of the generator run on the block hashes of the basis,
    and the sentinel when the check is on and the generator did not
    fail. *)
Theorem delta_of_signature :
  forall (engine : Engine) (digest : Digest) fl_s fl_d basis nf file_s,
    let s := signature fl_s (inr basis) (inr file_s) in
    ret s = None ->
    let rs := getRsync fl_s in
    let dl := CreateDelta rs nf (emitted (CreateSignature rs basis))
                          (checkFile fl_d) in
    delta fl_d (inr (out s)) (inr nf) (inr None)
    = {| ret := failure dl;
         out := FInt (BlockSize rs)
                :: map FOperation
                     (emitted dl
                      ++ match failure dl with
                         | None =>
                             if checkFile fl_d
                             then [sentinel_of (hashed dl)] else []
                         | Some _ => []
                         end) |}.
Proof.
  intros engine digest fl_s fl_d basis nf file_s s Hs rs dl.
  destruct (@signature_success engine fl_s basis file_s Hs) as [Hout _].
  fold s rs in Hout. rewrite Hout.
  etransitivity.
  { exact (@delta_after_header engine digest fl_d
             (FInt (BlockSize rs)
              :: map FBlockHash (emitted (CreateSignature rs basis)))
             nf None (BlockSize rs)
             (map FBlockHash (emitted (CreateSignature rs basis)))
             (emitted (CreateSignature rs basis))
             {| written := [FInt (BlockSize rs)]; room := None |}
             eq_refl
             (load_hashes_records (emitted (CreateSignature rs basis)) [])
             eq_refl). }
  unfold delta_generation, engine_call.
  rewrite (push_each_unlimited FOperation) by reflexivity.
  change (CreateDelta (with_block_size fl_d (BlockSize rs)) nf
                      (emitted (CreateSignature rs basis)) (checkFile fl_d))
    with dl.
  destruct (failure dl) as [e|].
  - cbn. now rewrite app_nil_r.
  - destruct (checkFile fl_d).
    + rewrite Encode_unlimited by reflexivity. cbn.
      now rewrite map_app.
    + cbn. now rewrite app_nil_r.
Qed.

Lemma delta_of_signature_witness :
  ret (delta (engine := Sample.literal_engine) (digest := Sample.digest)
             (Sample.flags false)
             (inr (out (signature (engine := Sample.literal_engine)
                                  (Sample.flags true) (inr Sample.abc)
                                  (inr None))))
             (inr Sample.abd) (inr None)) = None.
Proof.
  exact (f_equal ret
           (@delta_of_signature Sample.literal_engine Sample.digest
              (Sample.flags true) (Sample.flags false) Sample.abc Sample.abd
              None eq_refl)).
Defined.

(** X7.  With the check on and an engine that emits no sentinel of its
    own, the delta file holds a sentinel exactly when [delta] returned no
    error: a delta file cut short by a failure never carries one. *)
Theorem delta_sentinel_iff_complete :
  forall (engine : Engine) (digest : Digest)
         fl stream nf file blockSize rest hl,
    checkFile fl = true ->
    Decode as_int stream = (inr blockSize, rest) ->
    load_hashes rest [] = inr hl ->
    Forall (fun op => Type' op <> HASH)
           (emitted (CreateDelta (with_block_size fl blockSize) nf hl true)) ->
    let d := delta fl (inr stream) (inr nf) (inr file) in
    last_sentinel (decoded (tl (out d))) <> None <-> ret d = None.
Proof.
  intros engine digest fl stream nf file blockSize rest hl Hc HD HL Hops d.
  subst d.
  destruct (Encode (NewEncoder file) (FInt blockSize)) as [[e0|] e] eqn:HE.
  { unfold delta. rewrite HD, HL. simpl. rewrite HE.
    apply Encode_error in HE. subst e. simpl.
    split; [congruence | discriminate]. }
  rewrite (@delta_after_header engine digest fl stream nf file blockSize rest
             hl e HD HL HE).
  apply Encode_ok in HE. simpl in HE. rewrite Hc.
  destruct (delta_generation fl blockSize nf hl e) as [[err|] e'] eqn:G.
  - unfold delta_generation in G.
    apply (engine_call_prefix FOperation) in G. destruct G as [k W].
    rewrite Hc in W. simpl. rewrite W, HE. simpl.
    rewrite decoded_operations, (last_sentinel_none (Forall_firstn_of k Hops)).
    split; [congruence | discriminate].
  - unfold delta_generation in G.
    apply (engine_call_ok FOperation) in G. destruct G as [W _].
    rewrite Hc in W.
    destruct (Encode e' _) as [[err|] e''] eqn:S; simpl.
    + apply Encode_error in S. subst e''. rewrite W, HE. simpl.
      rewrite decoded_operations, (last_sentinel_none Hops).
      split; [congruence | discriminate].
    + apply Encode_ok in S. rewrite S, W, HE. simpl.
      match goal with
      | |- context [map FOperation ?o ++ [FOperation ?x]] =>
          replace (map FOperation o ++ [FOperation x])
            with (map FOperation (o ++ [x])) by (now rewrite map_app)
      end.
      rewrite decoded_operations.
      rewrite last_sentinel_snoc by reflexivity.
      split; [reflexivity | discriminate].
Qed.

Lemma delta_sentinel_iff_complete_witness :
  last_sentinel
    (decoded
       (tl (out (delta (engine := Sample.failing_engine)
                       (digest := Sample.digest) (Sample.flags true)
                       (inr [FInt 6144]) (inr Sample.abd) (inr None)))))
  <> None <->
  ret (delta (engine := Sample.failing_engine) (digest := Sample.digest)
             (Sample.flags true) (inr [FInt 6144]) (inr Sample.abd)
             (inr None)) = None.
Proof.
  apply (@delta_sentinel_iff_complete Sample.failing_engine Sample.digest
           (Sample.flags true) [FInt 6144] Sample.abd None 6144 [] []
           eq_refl eq_refl eq_refl).
  repeat constructor. discriminate.
Defined.

(** ** [delta] then [patch] *)

(** X8.  A delta made with the check off, from an engine that emits no
    sentinel of its own, holds no sentinel: [patch] with the check on
    returns [NoTargetSumError] on it once the apply step returns no
    error, although the new file has been written. *)
Theorem unchecked_delta_checked_patch :
  forall (engine : Engine) (digest : Digest)
         fl_d fl_p stream nf file blockSize rest hl basis,
    checkFile fl_d = false ->
    checkFile fl_p = true ->
    Decode as_int stream = (inr blockSize, rest) ->
    load_hashes rest [] = inr hl ->
    let ops := emitted (CreateDelta (with_block_size fl_d blockSize) nf hl
                                    false) in
    Forall (fun op => Type' op <> HASH) ops ->
    let d := delta fl_d (inr stream) (inr nf) (inr file) in
    ret d = None ->
    let run := ApplyDelta (with_block_size fl_p blockSize) basis ops true in
    failure run = None ->
    let p := patch fl_p (inr basis) (inr (out d)) None in
    patch_ret p = Some NoTargetSumError /\ newfile p = emitted run.
Proof.
  intros engine digest fl_d fl_p stream nf file blockSize rest hl basis
         Hd Hp HD HL ops Hops d Hret run Hrun p.
  destruct (@delta_success engine digest fl_d stream nf file blockSize rest hl
              HD HL Hret) as [Hout _].
  rewrite Hd in Hout. rewrite app_nil_r in Hout. fold ops in Hout.
  subst p d. rewrite Hout. split.
  - rewrite (@patch_without_sentinel engine digest fl_p basis blockSize ops
               Hp Hops).
    fold run. now rewrite Hrun.
  - rewrite patch_after_header. simpl.
    rewrite decode_ops_sent, decoded_operations, (instructions_all Hops), Hp.
    reflexivity.
Qed.

Lemma unchecked_delta_checked_patch_witness :
  patch_ret
    (patch (engine := Sample.literal_engine) (digest := Sample.digest)
       (Sample.flags true) (inr Sample.abc)
       (inr (out (delta (engine := Sample.literal_engine)
                        (digest := Sample.digest) (Sample.flags false)
                        (inr [FInt 6144]) (inr Sample.abd) (inr None))))
       None) = Some NoTargetSumError.
Proof.
  apply (@unchecked_delta_checked_patch Sample.literal_engine Sample.digest
           (Sample.flags false) (Sample.flags true) [FInt 6144] Sample.abd
           None 6144 [] [] Sample.abc eq_refl eq_refl eq_refl eq_refl);
    try reflexivity.
  repeat constructor. discriminate.
Defined.

(** X10.  For a faithful engine, a delta made with the check on from a
    new file, and a [patch] with the check on of any basis, the right one
    or not, whose apply step returns no error: [patch] returns no error
    exactly when the digest of the bytes it wrote is the digest of that
    new file, and [HashNoMatchError] otherwise. *)
Theorem checked_patch_accepts_digest_only :
  forall (engine : Engine) (digest : Digest) (faithful : Faithful engine)
         fl_d fl_p stream nf file blockSize rest hl basis,
    checkFile fl_d = true ->
    checkFile fl_p = true ->
    Decode as_int stream = (inr blockSize, rest) ->
    load_hashes rest [] = inr hl ->
    let d := delta fl_d (inr stream) (inr nf) (inr file) in
    ret d = None ->
    let ops := emitted (CreateDelta (with_block_size fl_d blockSize) nf hl
                                    true) in
    failure (ApplyDelta (with_block_size fl_p blockSize) basis ops true)
    = None ->
    let p := patch fl_p (inr basis) (inr (out d)) None in
    (patch_ret p = None <-> md5_Sum (newfile p) = md5_Sum nf) /\
    (patch_ret p <> None -> patch_ret p = Some HashNoMatchError).
Proof.
  intros engine digest faithful fl_d fl_p stream nf file blockSize rest hl
         basis Hd Hp HD HL d Hret ops Hrun p.
  destruct (@delta_success engine digest fl_d stream nf file blockSize rest hl
              HD HL Hret) as [Hout Hdl].
  rewrite Hd in Hout, Hdl. fold ops in Hout.
  rewrite (delta_hashes_newfile _ nf hl Hdl) in Hout.
  pose proof (delta_no_sentinel (with_block_size fl_d blockSize) nf hl true)
    as Hops. fold ops in Hops.
  assert (Hi : instructions (ops ++ [sentinel_of nf]) = ops).
  { rewrite instructions_app, (instructions_all Hops). apply app_nil_r. }
  pose proof (apply_hashes_target _ basis ops Hrun) as Hh.
  set (run := ApplyDelta (with_block_size fl_p blockSize) basis ops true) in *.
  assert (E : p = {| patch_ret :=
                       if bytes_eqb (md5_Sum nf) (md5_Sum (emitted run))
                       then None else Some HashNoMatchError;
                     newfile := emitted run;
                     task := Some (decode_ops (tl (out d)) None) |}).
  { subst p d. rewrite Hout. rewrite patch_after_header. simpl tl.
    unfold verdict_after.
    rewrite decode_ops_sent, decode_ops_sourceSum, decode_ops_well_formed.
    rewrite decoded_operations, Hi, Hp. fold run. rewrite Hrun.
    unfold sum_after. rewrite last_sentinel_snoc by reflexivity.
    rewrite Hh. unfold bytes_Equal. simpl.
    now destruct (bytes_eqb (md5_Sum nf) (md5_Sum (emitted run))). }
  rewrite E. simpl.
  destruct (bytes_eqb (md5_Sum nf) (md5_Sum (emitted run))) eqn:B.
  - apply bytes_eqb_eq in B. split; [|congruence].
    split; [congruence | reflexivity].
  - split; [|reflexivity]. split; [discriminate|].
    intros H. symmetry in H. apply bytes_eqb_eq in H. congruence.
Qed.

Lemma checked_patch_accepts_digest_only_witness :
  patch_ret
    (patch (engine := Sample.literal_engine) (digest := Sample.digest)
       (Sample.flags true) (inr [])
       (inr (out (delta (engine := Sample.literal_engine)
                        (digest := Sample.digest) (Sample.flags true)
                        (inr [FInt 6144]) (inr Sample.abd) (inr None))))
       None) = None.
Proof.
  apply (@checked_patch_accepts_digest_only Sample.literal_engine
           Sample.digest literal_engine_faithful
           (Sample.flags true) (Sample.flags true) [FInt 6144] Sample.abd
           None 6144 [] [] [] eq_refl eq_refl eq_refl eq_refl eq_refl
           eq_refl).
  reflexivity.
Defined.

(** ** Further properties of the comparator *)

Lemma reader_reports_first : forall calls,
    reports (reader calls) =
    match first_read_error calls with
    | Some err => if is_EOF err then None else Some (ErrorReadingFile err)
    | None => None
    end.
Proof.
  induction calls as [|call rest IH]; [reflexivity|]. simpl.
  destruct (read_err call) as [err|]; [now destruct (is_EOF err) | exact IH].
Qed.

Lemma reader_pushes_nonempty : forall calls,
    Forall (fun s => s <> []) (pushed (reader calls)).
Proof.
  induction calls as [|call rest IH]; [constructor|]. simpl.
  destruct (read_err call) as [err|].
  - destruct (is_EOF err); simpl; destruct (got call) eqn:G;
      repeat constructor; discriminate.
  - simpl. destruct (got call) eqn:G; [exact IH|].
    constructor; [discriminate | exact IH].
Qed.

(** X11.  A [reader] never pushes an empty slice; the slices it pushes
    are, in order, the bytes read up to the first error; it closes its
    channel exactly when that first error is [io.EOF] (or the file
    ends), and exactly then it reports nothing: otherwise it reports
    that error, wrapped, and leaves the channel open. *)
Theorem reader_contract :
  forall calls,
    let r := reader calls in
    Forall (fun s => s <> []) (pushed r) /\
    concat (pushed r) = delivered calls /\
    closes r = reaches_EOF calls /\
    (closes r = true <-> reports r = None) /\
    (forall err,
        first_read_error calls = Some err -> is_EOF err = false ->
        reports r = Some (ErrorReadingFile err) /\ closes r = false).
Proof.
  intros calls r. subst r.
  split; [apply reader_pushes_nonempty|].
  split; [apply reader_delivers|].
  split; [apply reader_closes|].
  rewrite reader_closes, reader_reports_first. split.
  - induction calls as [|call rest IH]; simpl; [tauto|].
    destruct (read_err call) as [err|]; [|exact IH].
    destruct (is_EOF err); split; intros; congruence.
  - intros err H Herr. rewrite H, Herr. split; [reflexivity|].
    induction calls as [|call rest IH]; simpl in *; [discriminate|].
    destruct (read_err call) as [e|]; [|now apply IH].
    now injection H as ->.
Qed.

Lemma first_difference_prefix : forall c tail,
    first_difference c (c ++ tail) = None /\
    first_difference (c ++ tail) c = None.
Proof.
  induction c as [|x c IH]; intros tail; simpl.
  - split; [reflexivity | now destruct tail].
  - rewrite byte_eqb_refl. destruct (IH tail) as [-> ->]. now split.
Qed.

(** The merge loop on two sources that close, with no read error,
    whatever the number of bytes each holds. *)
Lemma merge_common_prefix :
  forall steps errors iteration location b1 q1 b2 q2,
    (forall k, errors k = []) ->
    0 <= location ->
    location + Z.of_nat (length (b1 ++ concat q1)) < 2 ^ 63 ->
    (length q1 + length q2 + length (b1 ++ concat q1) < steps)%nat ->
    merge steps errors iteration location b1 q1 true b2 q2 true =
    match first_difference (b1 ++ concat q1) (b2 ++ concat q2) with
    | Some i => Returns (Some (BytesDiffer (location + Z.of_nat i)))
    | None => Returns None
    end.
Proof.
  induction steps as [|steps IH];
    intros errors iteration location b1 q1 b2 q2 Herr H0 Hmax Hsteps; [lia|].
  simpl. rewrite Herr.
  pose proof (receive_closing b1 q1) as R1.
  destruct (receive b1 q1 true) as [b1' q1'| |]; [| |contradiction].
  2:{ destruct R1 as [-> ->]. reflexivity. }
  destruct R1 as [E1 [L1 P1]].
  pose proof (receive_closing b2 q2) as R2.
  destruct (receive b2 q2 true) as [b2' q2'| |]; [| |contradiction].
  2:{ destruct R2 as [-> ->]. simpl.
      now destruct (b1 ++ concat q1). }
  destruct R2 as [E2 [L2 P2]].
  rewrite <- E1, <- E2 in *. clear E1 E2.
  rewrite min_of_lengths.
  set (size := Nat.min (length b1') (length b2')).
  rewrite compare_bytes_spec
    by (try assumption; rewrite ?length_app in Hmax; unfold size; lia).
  replace (first_difference (b1' ++ concat q1') (b2' ++ concat q2'))
    with (first_difference
            (firstn size b1' ++ (skipn size b1' ++ concat q1'))
            (firstn size b2' ++ (skipn size b2' ++ concat q2')))
    by (now rewrite !app_assoc, !firstn_skipn).
  assert (Hp : length (firstn size b1') = length (firstn size b2')).
  { rewrite !length_firstn. unfold size. lia. }
  rewrite (@first_difference_app _ _ _ _ Hp).
  destruct (first_difference (firstn size b1') (firstn size b2'));
    [reflexivity|].
  rewrite IH.
  - rewrite length_firstn.
    replace (Nat.min size (length b1')) with size by (unfold size; lia).
    destruct (first_difference _ _); simpl; [|reflexivity].
    do 3 f_equal. lia.
  - exact Herr.
  - lia.
  - rewrite !length_app, !length_skipn in *. unfold size. lia.
  - rewrite !length_app, !length_skipn in *.
    destruct b1' as [|x b1'].
    + specialize (P1 eq_refl). simpl. lia.
    + destruct b2' as [|y b2'].
      * specialize (P2 eq_refl). unfold size. simpl length in *. lia.
      * unfold size. simpl length in *. lia.
Qed.

(** X12.  [test] compares sizes through [Stat] only.  When the sizes
    agree and both files are read to their end, it compares the bytes
    delivered up to the shorter delivery: a file that delivers fewer
    bytes than its size, all equal to the other file's, passes. *)
Theorem test_compares_common_prefix :
  forall f1 f2 sched size,
    Stat f1 = inr size -> Stat f2 = inr size ->
    reaches_EOF (reads f1) = true -> reaches_EOF (reads f2) = true ->
    Z.of_nat (length (delivered (reads f1))) < 2 ^ 63 ->
    let c1 := delivered (reads f1) in
    let c2 := delivered (reads f2) in
    let v := verdict (test (inr f1) (inr f2) sched) in
    v = match first_difference c1 c2 with
        | Some i => Returns (Some (BytesDiffer (Z.of_nat i)))
        | None => Returns None
        end /\
    (forall tail, c1 = c2 ++ tail \/ c2 = c1 ++ tail -> v = Returns None).
Proof.
  intros f1 f2 sched size S1 S2 E1 E2 M c1 c2 v.
  assert (Hv : v = match first_difference c1 c2 with
                   | Some i => Returns (Some (BytesDiffer (Z.of_nat i)))
                   | None => Returns None
                   end).
  { subst v c1 c2. unfold test. cbv beta iota zeta. rewrite S1. cbv beta iota.
    rewrite S2. cbv beta iota. rewrite Z.eqb_refl. cbn [negb verdict].
    rewrite !reader_closes, E1, E2.
    rewrite <- !reader_delivers in *.
    apply merge_common_prefix.
    - intros k. apply errorSource_empty; now apply reader_reports.
    - lia.
    - simpl. lia.
    - unfold enough. simpl. lia. }
  split; [exact Hv|].
  intros tail [H|H]; rewrite Hv, H;
    destruct (first_difference_prefix c1 tail) as [A B];
    destruct (first_difference_prefix c2 tail) as [A' B'];
    now rewrite ?A, ?B, ?A', ?B'.
Qed.

Lemma test_compares_common_prefix_witness :
  verdict (test (inr Sample.file_abc) (inr Sample.file_ab_of_3)
                Sample.any_schedule) = Returns None.
Proof.
  apply (proj2 (@test_compares_common_prefix Sample.file_abc
                  Sample.file_ab_of_3 Sample.any_schedule 3
                  eq_refl eq_refl eq_refl eq_refl eq_refl)
               ["c"%byte]).
  left. reflexivity.
Defined.

Lemma receive_open : forall b q,
    Forall (fun s => s <> []) q ->
    match receive b q false with
    | ChannelClosed => False
    | Waits => b = [] /\ q = []
    | Got b' q' =>
        b' <> [] /\ b' ++ concat q' = b ++ concat q /\
        (length q' <= length q)%nat /\ Forall (fun s => s <> []) q'
    end.
Proof.
  intros [|x b] [|c q] H; simpl.
  - now split.
  - inversion H; subst. repeat split; try assumption; lia.
  - repeat split; [discriminate | lia | constructor].
  - repeat split; [discriminate | lia | assumption].
Qed.

(** The merge loop when the first source is never closed and no error
    is seen: once the bytes of that source are used up, all equal to the
    other source's, the loop waits on it for ever. *)
Lemma merge_blocks :
  forall steps errors iteration location b1 q1 b2 q2 closes2,
    (forall k, errors k = []) ->
    0 <= location ->
    location + Z.of_nat (length (b1 ++ concat q1)) < 2 ^ 63 ->
    Forall (fun s => s <> []) q1 ->
    first_difference (b1 ++ concat q1) (b2 ++ concat q2) = None ->
    (length (b1 ++ concat q1) <= length (b2 ++ concat q2))%nat ->
    (length q1 + length q2 + length (b1 ++ concat q1) < steps)%nat ->
    merge steps errors iteration location b1 q1 false b2 q2 closes2 = Blocks.
Proof.
  induction steps as [|steps IH];
    intros errors iteration location b1 q1 b2 q2 closes2
           Herr H0 Hmax Hq Hfd Hle Hsteps; [lia|].
  simpl. rewrite Herr.
  pose proof (receive_open b1 Hq) as R1.
  destruct (receive b1 q1 false) as [b1' q1'| |];
    [|contradiction|reflexivity].
  destruct R1 as [N1 [E1 [L1 Hq']]].
  pose proof (receive_spec b2 q2 closes2) as R2.
  destruct (receive b2 q2 closes2) as [b2' q2'| |]; [| |reflexivity].
  2:{ destruct R2 as [-> [-> _]]. rewrite <- E1 in Hle.
      destruct b1'; [contradiction | simpl in Hle; lia]. }
  destruct R2 as [E2 [L2 P2]].
  rewrite <- E1, <- E2 in *. clear E1 E2.
  rewrite min_of_lengths.
  set (size := Nat.min (length b1') (length b2')).
  rewrite compare_bytes_spec
    by (try assumption; rewrite ?length_app in Hmax; unfold size; lia).
  assert (Hp : length (firstn size b1') = length (firstn size b2')).
  { rewrite !length_firstn. unfold size. lia. }
  assert (Hsplit :
            first_difference
              (firstn size b1' ++ (skipn size b1' ++ concat q1'))
              (firstn size b2' ++ (skipn size b2' ++ concat q2')) = None).
  { now rewrite !app_assoc, !firstn_skipn. }
  rewrite (@first_difference_app _ _ _ _ Hp) in Hsplit.
  destruct (first_difference (firstn size b1') (firstn size b2'));
    [discriminate|].
  apply IH.
  - exact Herr.
  - lia.
  - rewrite !length_app, !length_skipn in *. unfold size. lia.
  - exact Hq'.
  - now destruct (first_difference (skipn size b1' ++ concat q1')
                                   (skipn size b2' ++ concat q2')).
  - rewrite !length_app, !length_skipn in *. unfold size. lia.
  - rewrite !length_app, !length_skipn in *.
    destruct b1' as [|x b1']; [contradiction|].
    destruct b2' as [|y b2'].
    + specialize (P2 eq_refl). unfold size. simpl length in *. lia.
    + unfold size. simpl length in *. lia.
Qed.

(** X13.  A [reader] that meets a read error leaves its channel open,
    and the merge loop looks at [errorSource] only at the top of an
    iteration.  When the first file's reader fails, the bytes it
    delivered are all equal to the second file's, and the loop does not
    find the error when it looks, [test] waits for ever on the first
    source: it returns nothing. *)
Theorem test_blocks_on_unseen_read_error :
  forall f1 f2 sched size,
    Stat f1 = inr size -> Stat f2 = inr size ->
    reaches_EOF (reads f1) = false ->
    (forall k, seen sched k = false) ->
    let c1 := delivered (reads f1) in
    let c2 := delivered (reads f2) in
    first_difference c1 c2 = None ->
    (length c1 <= length c2)%nat ->
    Z.of_nat (length c1) < 2 ^ 63 ->
    verdict (test (inr f1) (inr f2) sched) = Blocks.
Proof.
  intros f1 f2 sched size S1 S2 E1 Hseen c1 c2 Hfd Hle M.
  subst c1 c2. unfold test. cbv beta iota zeta. rewrite S1. cbv beta iota.
  rewrite S2. cbv beta iota. rewrite Z.eqb_refl. cbn [negb verdict].
  rewrite (reader_closes (reads f1)), E1.
  rewrite <- !reader_delivers in *.
  apply merge_blocks.
  - intros k. unfold errorSource. now rewrite Hseen.
  - lia.
  - simpl. lia.
  - apply reader_pushes_nonempty.
  - exact Hfd.
  - exact Hle.
  - unfold enough. simpl. lia.
Qed.

Lemma test_blocks_on_unseen_read_error_witness :
  verdict (test (inr Sample.file_a_then_error) (inr Sample.file_abc)
                Sample.never_seen) = Blocks.
Proof.
  apply (@test_blocks_on_unseen_read_error Sample.file_a_then_error
           Sample.file_abc Sample.never_seen 3 eq_refl eq_refl eq_refl
           (fun _ => eq_refl) eq_refl).
  - simpl. lia.
  - reflexivity.
Defined.

(** X14.  When the merge loop finds a read error in [errorSource] the
    first time it looks, [test] returns that error, wrapped, whatever
    the two files hold: the first file's error when it is the first in
    the queue, the second file's when the first file's reader reported
    none. *)
Theorem test_returns_read_error_seen_first :
  forall f1 f2 sched size err,
    Stat f1 = inr size -> Stat f2 = inr size ->
    seen sched O = true ->
    is_EOF err = false ->
    (first_read_error (reads f1) = Some err ->
     first_file_first sched = true ->
     verdict (test (inr f1) (inr f2) sched)
     = Returns (Some (ErrorReadingFile err))) /\
    (first_read_error (reads f2) = Some err ->
     reaches_EOF (reads f1) = true ->
     verdict (test (inr f1) (inr f2) sched)
     = Returns (Some (ErrorReadingFile err))).
Proof.
  intros f1 f2 sched size err S1 S2 Hseen Herr.
  assert (Hv : verdict (test (inr f1) (inr f2) sched) =
               merge (enough (pushed (reader (reads f1)))
                             (pushed (reader (reads f2))))
                     (errorSource sched (reader (reads f1))
                                  (reader (reads f2)))
                     O 0 [] (pushed (reader (reads f1)))
                     (closes (reader (reads f1)))
                     [] (pushed (reader (reads f2)))
                     (closes (reader (reads f2)))).
  { unfold test. cbv beta iota zeta. rewrite S1. cbv beta iota.
    rewrite S2. cbv beta iota. now rewrite Z.eqb_refl. }
  rewrite Hv. unfold enough. cbn [merge]. unfold errorSource.
  rewrite Hseen, !reader_reports_first. split.
  - intros H1 Hfirst. rewrite H1, Herr, Hfirst. reflexivity.
  - intros H2 E1. rewrite H2, Herr.
    pose proof (reader_reports (reads f1) E1) as R.
    rewrite reader_reports_first in R. rewrite R.
    now destruct (first_file_first sched).
Qed.

Lemma test_returns_read_error_seen_first_witness :
  verdict (test (inr Sample.file_a_then_error) (inr Sample.file_abd)
                Sample.any_schedule)
  = Returns (Some (ErrorReadingFile (Foreign "read: input/output error"))).
Proof.
  apply (proj1 (@test_returns_read_error_seen_first Sample.file_a_then_error
                  Sample.file_abd Sample.any_schedule 3
                  (Foreign "read: input/output error")
                  eq_refl eq_refl eq_refl eq_refl));
    reflexivity.
Defined.

(** ** The engine's configuration and the entry point *)

Lemma int_wrap_range : forall z, - 2 ^ 63 <= int_wrap z < 2 ^ 63.
Proof.
  intros z. unfold int_wrap.
  pose proof (Z.mod_pos_bound (z + 2 ^ 63) (2 ^ 64) ltac:(lia)). lia.
Qed.

(** X3.  [getRsync] sets [MaxDataOp] to one MiB and [BlockSize] to 1024
    times the flag in 64-bit arithmetic: it is that product exactly when
    the flag lies between -2^53 and 2^53, so that a positive flag below
    2^53 gives a positive block size; beyond, the product wraps, and a
    flag that is a multiple of 2^54 gives the block size 0. *)
Theorem getRsync_block_size :
  forall fl,
    let rs := getRsync fl in
    MaxDataOp rs = 1048576 /\
    (BlockSize rs = 1024 * blockSizeKiB fl <->
     - 2 ^ 53 <= blockSizeKiB fl < 2 ^ 53) /\
    (0 < blockSizeKiB fl < 2 ^ 53 -> 0 < BlockSize rs) /\
    (forall m, blockSizeKiB fl = m * 2 ^ 54 -> BlockSize rs = 0).
Proof.
  intros fl rs. subst rs. unfold getRsync. simpl BlockSize. simpl MaxDataOp.
  unfold int_mul. split; [reflexivity|]. split; [|split].
  - split.
    + intros H. pose proof (int_wrap_range (1024 * blockSizeKiB fl)) as R.
      rewrite H in R. lia.
    + intros H. apply int_wrap_small. lia.
  - intros H. rewrite int_wrap_small; lia.
  - intros m ->. unfold int_wrap.
    replace (1024 * (m * 2 ^ 54) + 2 ^ 63) with (2 ^ 63 + m * 2 ^ 64) by lia.
    rewrite Z.mod_add by lia. rewrite Z.mod_small; lia.
Qed.

Lemma getRsync_block_size_witness :
  0 < BlockSize (getRsync (Sample.flags true)).
Proof.
  apply (@getRsync_block_size (Sample.flags true)).
  simpl. lia.
Defined.

Lemma string_length_zero : forall s : String.string,
    (String.length s =? 0)%nat = true <-> s = "".
Proof.
  intros [|c s]; simpl; split; congruence.
Qed.

Lemma call_of_known : forall verb args,
    call_of verb args <> None <-> known_verb verb = true.
Proof.
  intros verb args. unfold call_of, known_verb.
  destruct (String.eqb verb "signature"); simpl; [split; congruence|].
  destruct (String.eqb verb "delta"); simpl; [split; congruence|].
  destruct (String.eqb verb "patch"); simpl; [split; congruence|].
  destruct (String.eqb verb "test"); simpl; split; congruence.
Qed.

(** X1.  [main] exits with status 1 exactly when the flags do not
    parse, the lowered verb is empty, the [--block] flag is not
    positive (whatever the verb, [test] included) or the verb is none of
    the four; it then prints the help and calls no verb.  With any other
    status the help is not printed. *)
Theorem main_usage_errors :
  forall ToLower run parsed,
    let e := main ToLower run parsed in
    (status e = 1 <->
     match parsed with
     | inl _ => True
     | inr (fl, args) =>
         ToLower (Arg args 0) = "" \/ blockSizeKiB fl <= 0 \/
         known_verb (ToLower (Arg args 0)) = false
     end) /\
    (status e = 1 -> help e = true /\ called e = None) /\
    (status e <> 1 -> help e = false).
Proof.
  intros ToLower run [err|[fl args]] e; subst e; unfold main.
  { simpl. repeat split; tauto. }
  destruct (String.length (ToLower (Arg args 0)) =? 0)%nat eqn:L.
  { apply string_length_zero in L. simpl. repeat split; tauto. }
  assert (Hv : ToLower (Arg args 0) <> "").
  { intros H. apply string_length_zero in H. congruence. }
  destruct (blockSizeKiB fl <=? 0) eqn:B.
  { apply Z.leb_le in B. simpl. repeat split; tauto. }
  apply Z.leb_gt in B.
  pose proof (call_of_known (ToLower (Arg args 0)) args) as K.
  destruct (call_of (ToLower (Arg args 0)) args) as [call|].
  - assert (Hk : known_verb (ToLower (Arg args 0)) = true)
      by (apply K; discriminate).
    destruct (run fl call); simpl; repeat split; try discriminate;
      try congruence; intros [H|[H|H]]; try contradiction; try lia;
      congruence.
  - assert (Hk : known_verb (ToLower (Arg args 0)) = false).
    { destruct (known_verb (ToLower (Arg args 0))); [|reflexivity].
      exfalso. now apply K. }
    simpl. repeat split; tauto.
Qed.

(** X2.  With a positive [--block] flag and one of the four verbs,
    [main] makes the one call of the [switch], the paths being the
    arguments after the verb in their order and the empty string for a
    missing one; it exits with status 2, logging the verb and the error,
    exactly when the call returns an error, and with status 0
    otherwise. *)
Theorem main_dispatch :
  forall ToLower run fl args,
    0 < blockSizeKiB fl ->
    let verb := ToLower (Arg args 0) in
    known_verb verb = true ->
    let e := main ToLower run (inr (fl, args)) in
    exists call,
      call_of verb args = Some call /\ called e = Some call /\
      help e = false /\
      (forall err,
          run fl call = Some err <->
          status e = 2 /\ logged e = Some (ErrorIn verb err)) /\
      (run fl call = None <-> status e = 0) /\
      (forall i, (length args <= i)%nat -> Arg args i = "").
Proof.
  intros ToLower run fl args Hb verb Hk e. subst e. unfold main. fold verb.
  destruct (String.length verb =? 0)%nat eqn:L.
  { apply string_length_zero in L. rewrite L in Hk. discriminate. }
  apply Z.leb_gt in Hb. rewrite Hb.
  pose proof (call_of_known verb args) as K.
  destruct (call_of verb args) as [call|];
    [|apply K in Hk; contradiction].
  exists call. destruct (run fl call) as [err|]; simpl.
  - repeat split; try congruence; try discriminate.
    + intros [_ H]. congruence.
    + intros i Hi. unfold Arg. now apply nth_overflow.
  - repeat split; try congruence; try discriminate.
    + intros [H _]. discriminate.
    + intros i Hi. unfold Arg. now apply nth_overflow.
Qed.

Lemma main_dispatch_witness :
  status (main Sample.lower Sample.no_such_file
               (inr (Sample.flags true, ["PATCH"; "old"]))) = 2.
Proof.
  destruct (@main_dispatch Sample.lower Sample.no_such_file
              (Sample.flags true) ["PATCH"; "old"] eq_refl eq_refl)
    as [call [Hc [_ [_ [H _]]]]].
  apply (H (Foreign "open: no such file or directory")). reflexivity.
Defined.
